(** * The caching namespace manager of SpiceDB

    A shallow embedding of [internal/namespace/caching.go]: the
    [cachingManager] that answers namespace reads from a ristretto cache
    and falls back, through a singleflight group, to the datastore.

    The manager's own code is embedded as state-passing functions over a
    [World] that holds the manager (with the state of its cache) and a
    trace of every call made to a collaborator.  The collaborators the
    file imports (the datastore found in the context, the ristretto cache,
    the protobuf size function, the type-system builder) are interfaces
    here: records of functions, a type class with the laws a cache obeys,
    and section variables. *)

From stdpp Require Import gmap strings list.
From Stdlib Require Import ZArith.

Local Open Scope Z_scope.
Local Open Scope string_scope.

(** ** Protocol buffer messages ([authzed.api.v0]) *)

(** [anypb.Any]: a type URL and the serialized payload. *)
Record Any := mkAny {
  TypeUrl : string;
  Value : string
}.

(** [v0.Metadata]: free-form, user-supplied messages (doc comments). *)
Record Metadata := mkMetadata {
  MetadataMessage : list Any
}.

(** [v0.Relation].  The userset rewrite and the type information are not
    inspected by the manager; they are kept as serialized sub-messages. *)
Record v0_Relation := mkRelation {
  Name : string;
  Relation_UsersetRewrite : option string;
  Relation_Metadata : option Metadata;
  Relation_TypeInformation : option string
}.

(** [v0.NamespaceDefinition]. *)
Record NamespaceDefinition := mkNamespaceDefinition {
  NamespaceDefinition_Name : string;
  Relation : list v0_Relation;
  NamespaceDefinition_Metadata : option Metadata
}.

(** [decimal.Decimal] (shopspring): [dec_value * 10 ^ dec_exp]. *)
Record Decimal := mkDecimal {
  dec_value : Z;
  dec_exp : Z
}.

(** [time.Duration]: a count of nanoseconds. *)
Definition Duration := Z.

(** ** Errors *)

(** The error values that travel through the manager.  [errorString] is
    an error that wraps nothing ([errors.New]); [wrapError] is what
    [fmt.Errorf] builds for a format ending in [%w]; the other three are
    the error structs of the datastore package and of this package. *)
Inductive error : Type :=
| errorString (msg : string)
| wrapError (format : string) (err : error)
| datastore_ErrNamespaceNotFound (nsName : string)
| ErrNamespaceNotFound (nsName : string)
| ErrRelationNotFound (nsName relationName : string).

(** [errors.As(err, &datastore.ErrNamespaceNotFound{})]: walks the
    [Unwrap] chain of [err] looking for the datastore's not-found struct.
    On a nil error it reports false. *)
Fixpoint errors_As_notfound (err : error) : bool :=
  match err with
  | datastore_ErrNamespaceNotFound _ => true
  | wrapError _ inner => errors_As_notfound inner
  | errorString _ => false
  | ErrNamespaceNotFound _ => false
  | ErrRelationNotFound _ _ => false
  end.

Definition errors_As (err : option error) : bool :=
  match err with
  | Some e => errors_As_notfound e
  | None => false
  end.

(** Modelled from the spec: [NewNamespaceNotFoundErr] lives in this
    package's errors file, which is not part of the sources at hand; it
    builds the "NamespaceNotFound" error, which "carries the namespace
    name". *)
Definition NewNamespaceNotFoundErr (nsName : string) : error :=
  ErrNamespaceNotFound nsName.

(** Modelled from the spec: [NewRelationNotFoundErr], from the same
    missing file, builds the "RelationNotFound" error, which "carries
    namespace + relation names". *)
Definition NewRelationNotFoundErr (nsName relationName : string) : error :=
  ErrRelationNotFound nsName relationName.

Definition errInitialization : string :=
  "unable to initialize namespace manager: %w".

(** [fmt.Errorf(format, err)] for a format with one [%w] verb. *)
Definition fmt_Errorf (format : string) (err : error) : error :=
  wrapError format err.

(** Modelled from the spec: [datastore.Ellipsis], a constant of the
    datastore package, is "the reserved wildcard relation name", written
    ["..."] in the relation-check property. *)
Definition Ellipsis : string := "...".

(** ** Sanitization *)

Definition strip_relation (relation : v0_Relation) : v0_Relation :=
  {| Name := Name relation;
     Relation_UsersetRewrite := Relation_UsersetRewrite relation;
     Relation_Metadata := None;
     Relation_TypeInformation := Relation_TypeInformation relation |}.

(** Modelled from the spec: [namespace.FilterUserDefinedMetadata] belongs
    to [pkg/namespace], which is not part of the sources at hand.  It
    "strips user-supplied/free-form metadata fields from the fetched
    Definition": the result is a copy in which the metadata of the
    definition and of each of its relations is nil. *)
Definition FilterUserDefinedMetadata (nsconfig : NamespaceDefinition)
  : NamespaceDefinition :=
  {| NamespaceDefinition_Name := NamespaceDefinition_Name nsconfig;
     Relation := map strip_relation (Relation nsconfig);
     NamespaceDefinition_Metadata := None |}.

(** No user-defined metadata field is present in a definition. *)
Definition no_user_metadata (nsDef : NamespaceDefinition) : bool :=
  match NamespaceDefinition_Metadata nsDef with
  | Some _ => false
  | None =>
      forallb (fun relation =>
                 match Relation_Metadata relation with
                 | Some _ => false
                 | None => true
                 end) (Relation nsDef)
  end.

(** ** Collaborators *)

(** The datastore interface, as far as the manager uses it.  Both methods
    return one of a value and an error.  The key derivation is a function
    of the name and the revision; a read is a function of them for the
    duration of one call (two calls may come with two datastores). *)
Record Datastore := mkDatastore {
  ds_ReadNamespace :
    string -> Decimal -> (NamespaceDefinition * Decimal) + error;
  NamespaceCacheKey : string -> Decimal -> string + error
}.

(** A [context.Context], reduced to the value the datastore middleware
    stores in it. *)
Record Context := mkContext {
  ctx_datastore : option Datastore
}.

Definition ContextWithDatastore (ds : Datastore) : Context :=
  {| ctx_datastore := Some ds |}.

(** [ristretto.Config], the three fields the manager sets. *)
Record Config := mkConfig {
  NumCounters : Z;
  MaxCost : Z;
  BufferItems : Z
}.

(** The ristretto cache.  Its admission and eviction policy is left open:
    [Cache_Set] may drop the item, any operation may evict, and even a
    lookup changes the state (the frequency counters).  [holds c k v]
    says that [c] may answer [v] for [k]; the laws say that a cache
    answers only what it holds and holds only what was stored in it.

    The values are interface values in Go; only [ReadNamespace] stores
    into this cache and it stores namespace definitions, so the values
    are typed as such and the type assertions of the source succeed. *)
Class Ristretto (C : Type) := {
  NewCache : Config -> C + error;
  Cache_Get : C -> string -> option NamespaceDefinition * C;
  Cache_Set : C -> string -> NamespaceDefinition -> Z -> bool * C;
  Cache_Close : C -> C;
  holds : C -> string -> NamespaceDefinition -> Prop;
  holds_NewCache : forall config c k v,
    NewCache config = inl c -> ~ holds c k v;
  Cache_Get_holds : forall c key v,
    (Cache_Get c key).1 = Some v -> holds c key v;
  holds_Cache_Get : forall c key k v,
    holds (Cache_Get c key).2 k v -> holds c k v;
  holds_Cache_Set : forall c key value cost k v,
    holds (Cache_Set c key value cost).2 k v ->
    holds c k v \/ (k = key /\ v = value);
  holds_Cache_Close : forall c k v,
    holds (Cache_Close c) k v -> holds c k v
}.

(** ** The manager and its world *)

(** What the manager does to its collaborators, in order. *)
Inductive Event : Type :=
| SpanStart (spanName : string)
| SpanAddEvent (name : string)
| SpanEnd
| CallNamespaceCacheKey (nsName : string) (revision : Decimal)
| CallReadNamespace (nsName : string) (revision : Decimal)
| CallGet (key : string)
| CallSet (key : string) (value : NamespaceDefinition) (cost : Z)
| CallClose
| CallBuildTypeSystem (nsDef : option NamespaceDefinition) (revision : Decimal).

Definition is_fetch (ev : Event) : bool :=
  match ev with CallReadNamespace _ _ => true | _ => false end.

Definition is_insert (ev : Event) : bool :=
  match ev with CallSet _ _ _ => true | _ => false end.

Definition is_build (ev : Event) : bool :=
  match ev with CallBuildTypeSystem _ _ => true | _ => false end.

(** How often a trace fetched from the datastore, stored into the cache,
    built a type system. *)
Definition fetches (t : list Event) : nat := length (List.filter is_fetch t).
Definition inserts (t : list Event) : nat := length (List.filter is_insert t).
Definition builds (t : list Event) : nat := length (List.filter is_build t).

Section Manager.

Context {C : Type} `{!Ristretto C}.

(** [proto.Size]: the length of the wire encoding of a message. *)
Variable proto_Size : NamespaceDefinition -> Z.

(** [NamespaceTypeSystem] and its builder are defined in another file of
    this package.  The builder receives the definition (a pointer, maybe
    nil), the manager and the revision.  It receives no context, and
    a read through the manager needs one: the manager is kept for the
    lookups the type system makes later, and building touches neither
    cache nor datastore. *)
Variable NamespaceTypeSystem : Type.
Variable BuildNamespaceTypeSystemForManager :
  option NamespaceDefinition -> Decimal ->
  option NamespaceTypeSystem * option error.

(** The struct.  [c] is the state of the cache the pointer refers to.
    The singleflight group has no state between two calls that do not
    overlap; see [Do]. *)
Record cachingManager := mkCachingManager {
  expiration : Duration;
  c : C
}.

Record World := mkWorld {
  nsc : cachingManager;
  trace : list Event
}.

(** A call either returns or panics; the world goes on in both cases. *)
Inductive Outcome (A : Type) : Type :=
| Returned (a : A) (w : World)
| Panicked (msg : string) (w : World).
Arguments Returned {A} a w.
Arguments Panicked {A} msg w.

Definition M (A : Type) : Type := World -> Outcome A.

Definition ret {A} (a : A) : M A := fun w => Returned a w.

Definition bind {A B} (m : M A) (k : A -> M B) : M B :=
  fun w =>
    match m w with
    | Returned a w' => k a w'
    | Panicked msg w' => Panicked msg w'
    end.

Definition panic {A} (msg : string) : M A := fun w => Panicked msg w.

Definition world_of {A} (o : Outcome A) : World :=
  match o with
  | Returned _ w => w
  | Panicked _ w => w
  end.

Definition returned {A} (o : Outcome A) : option A :=
  match o with
  | Returned a _ => Some a
  | Panicked _ _ => None
  end.

Definition emit (ev : Event) : M unit :=
  fun w => Returned tt {| nsc := nsc w; trace := trace w ++ [ev] |}.

(** [defer f(); body]: [f] runs when [body] returns and when it panics. *)
Definition defer {A} (deferred : M unit) (body : M A) : M A :=
  fun w =>
    match body w with
    | Returned a w' =>
        match deferred w' with
        | Returned _ w'' => Returned a w''
        | Panicked msg w'' => Panicked msg w''
        end
    | Panicked msg w' => Panicked msg (world_of (deferred w'))
    end.

Notation "x <- m ;; k" := (bind m (fun x => k))
  (at level 100, m at next level, right associativity).
Notation "m ;;; k" := (bind m (fun _ => k))
  (at level 100, right associativity).

(** *** Calls to the collaborators *)

(** [tracer.Start(ctx, name)] and the methods of the span. *)
Definition tracer_Start (spanName : string) : M unit :=
  emit (SpanStart spanName).
Definition span_AddEvent (name : string) : M unit := emit (SpanAddEvent name).
Definition span_End : M unit := emit SpanEnd.

(** Modelled from the spec: [datastoremw.MustFromContext] belongs to
    another package of the repository.  The datastore collaborator of
    the spec reaches an operation through its context; as its name says,
    the function panics when the context carries none. *)
Definition MustFromContext (ctx : Context) : M Datastore :=
  match ctx_datastore ctx with
  | Some ds => ret ds
  | None => panic "datastore middleware did not inject datastore"
  end.

Definition call_NamespaceCacheKey (ds : Datastore) (nsName : string)
    (revision : Decimal) : M (string + error) :=
  emit (CallNamespaceCacheKey nsName revision) ;;;
  ret (NamespaceCacheKey ds nsName revision).

Definition call_ReadNamespace (ds : Datastore) (nsName : string)
    (revision : Decimal) : M ((NamespaceDefinition * Decimal) + error) :=
  emit (CallReadNamespace nsName revision) ;;;
  ret (ds_ReadNamespace ds nsName revision).

Definition with_cache (w : World) (c' : C) : World :=
  {| nsc := {| expiration := expiration (nsc w); c := c' |};
     trace := trace w |}.

(** [nsc.c.Get(key)]: the value, or nothing when not found. *)
Definition c_Get (key : string) : M (option NamespaceDefinition) :=
  emit (CallGet key) ;;;
  fun w =>
    let r := Cache_Get (c (nsc w)) key in
    Returned r.1 (with_cache w r.2).

(** [nsc.c.Set(key, value, cost)]; the source drops the boolean. *)
Definition c_Set (key : string) (value : NamespaceDefinition) (cost : Z)
  : M bool :=
  emit (CallSet key value cost) ;;;
  fun w =>
    let r := Cache_Set (c (nsc w)) key value cost in
    Returned r.1 (with_cache w r.2).

Definition c_Close : M unit :=
  emit CallClose ;;;
  fun w => Returned tt (with_cache w (Cache_Close (c (nsc w)))).

(** [nsc.readNsGroup.Do(key, fn)] when no other call for [key] is in
    flight, which is the case whenever calls do not overlap: the group
    runs [fn] and hands back its results (the third result, whether they
    were shared, is dropped by the source).  Overlapping calls are the
    subject of the module [Overlap] below. *)
Definition Do {A} (key : string) (fn : M A) : M A := fn.

(** *** The methods *)

Definition ReadNamespace (ctx : Context) (nsName : string) (revision : Decimal)
  : M (option NamespaceDefinition * option error) :=
  tracer_Start "ReadNamespace" ;;;
  defer span_End (
    ds <- MustFromContext ctx ;;
    (* Check the cache. *)
    k <- call_NamespaceCacheKey ds nsName revision ;;
    match k with
    | inr err => ret (None, Some err)
    | inl nsRevisionKey =>
        value <- c_Get nsRevisionKey ;;
        match value with
        | Some found => ret (Some found, None)
        | None =>
            (* We couldn't use the cached entry, load one *)
            r <- Do nsRevisionKey (
              span_AddEvent "Read namespace from delegate (datastore)" ;;;
              l <- call_ReadNamespace ds nsName revision ;;
              match l with
              | inr err => ret (None, Some err)
              | inl (loaded, _) =>
                  (* Remove user-defined metadata. *)
                  let loaded := FilterUserDefinedMetadata loaded in
                  k' <- call_NamespaceCacheKey ds nsName revision ;;
                  match k' with
                  | inr err => ret (None, Some err)
                  | inl cacheKey =>
                      (* Save it to the cache *)
                      c_Set cacheKey loaded (proto_Size loaded) ;;;
                      span_AddEvent "Saved to cache" ;;;
                      ret (Some loaded, None)
                  end
              end) ;;
            let '(loadedRaw, err) := r in
            if errors_As err then
              ret (None, Some (NewNamespaceNotFoundErr nsName))
            else
              match err with
              | Some e => ret (None, Some e)
              | None =>
                  match loadedRaw with
                  | Some nsDef => ret (Some nsDef, None)
                  | None => panic "interface conversion: interface is nil"
                  end
              end
        end
    end).

Definition ReadNamespaceAndTypes (ctx : Context) (nsName : string)
    (revision : Decimal)
  : M (option NamespaceDefinition * option NamespaceTypeSystem *
       option error) :=
  r <- ReadNamespace ctx nsName revision ;;
  let '(nsDef, err) := r in
  match err with
  | Some e => ret (nsDef, None, Some e)
  | None =>
      emit (CallBuildTypeSystem nsDef revision) ;;;
      let '(ts, terr) := BuildNamespaceTypeSystemForManager nsDef revision in
      ret (nsDef, ts, terr)
  end.

(** The loop [for _, rel := range config.Relation]: true when it leaves
    through [return nil]. *)
Fixpoint range_Relation (relations : list v0_Relation) (relation : string)
  : bool :=
  match relations with
  | [] => false
  | rel :: rest =>
      if String.eqb (Name rel) relation then true
      else range_Relation rest relation
  end.

Definition CheckNamespaceAndRelation (ctx : Context)
    (namespace relation : string) (allowEllipsis : bool) (revision : Decimal)
  : M (option error) :=
  r <- ReadNamespace ctx namespace revision ;;
  let '(config, err) := r in
  match err with
  | Some e => ret (Some e)
  | None =>
      if allowEllipsis && String.eqb relation Ellipsis then ret None
      else
        match config with
        | None => panic "invalid memory address or nil pointer dereference"
        | Some config =>
            if range_Relation (Relation config) relation then ret None
            else ret (Some (NewRelationNotFoundErr namespace relation))
        end
  end.

Definition Close : M (option error) :=
  c_Close ;;;
  ret None.

(** The constructor.  It builds a manager, not a world: the caller owns
    the result. *)
Definition defaultConfig : Config :=
  {| NumCounters := 10000;      (* 1e4: number of keys to track frequency of *)
     MaxCost := Z.shiftl 1 24;  (* maximum cost of cache *)
     BufferItems := 64 |}.      (* number of keys per Get buffer *)

Definition NewCachingNamespaceManager (expiration : Duration)
    (cacheConfig : option Config) : option cachingManager * option error :=
  let cacheConfig :=
    match cacheConfig with
    | None => defaultConfig
    | Some config => config
    end in
  match NewCache cacheConfig with
  | inr err => (None, Some (fmt_Errorf errInitialization err))
  | inl cache => (Some {| expiration := expiration; c := cache |}, None)
  end.

(** The worlds a manager goes through: fresh from the constructor, then
    after any call of any method, with any arguments and whatever the
    datastore of that call answers, whether the call returns or panics. *)
Inductive reachable : World -> Prop :=
| reachable_new expiration cacheConfig manager :
    NewCachingNamespaceManager expiration cacheConfig = (Some manager, None) ->
    reachable {| nsc := manager; trace := [] |}
| reachable_ReadNamespace ctx nsName revision w :
    reachable w ->
    reachable (world_of (ReadNamespace ctx nsName revision w))
| reachable_ReadNamespaceAndTypes ctx nsName revision w :
    reachable w ->
    reachable (world_of (ReadNamespaceAndTypes ctx nsName revision w))
| reachable_CheckNamespaceAndRelation ctx namespace relation allowEllipsis
    revision w :
    reachable w ->
    reachable (world_of (CheckNamespaceAndRelation ctx namespace relation
                           allowEllipsis revision w))
| reachable_Close w :
    reachable w ->
    reachable (world_of (Close w)).

End Manager.

Arguments Returned {C A} a w.
Arguments Panicked {C A} msg w.
Arguments World C : clear implicits.
Arguments cachingManager C : clear implicits.

(** ** Worlds the manager can be in *)

(** A world whose cache holds sanitized definitions only. *)
Definition sanitized_cache `{!Ristretto C} (w : World C) : Prop :=
  forall k v, holds (c (nsc w)) k v -> no_user_metadata v = true.

(** The world after the events [evs], with the cache in state [c']. *)
Definition after {C} (w : World C) (c' : C) (evs : list Event) : World C :=
  {| nsc := {| expiration := expiration (nsc w); c := c' |};
     trace := trace w ++ evs |}.

(** The same world around a manager built with another expiration. *)
Definition with_expiration {C} (d : Duration) (w : World C) : World C :=
  {| nsc := {| expiration := d; c := c (nsc w) |}; trace := trace w |}.

Definition map_world {C A} (f : World C -> World C) (o : Outcome A)
  : Outcome A :=
  match o with
  | Returned a w => Returned a (f w)
  | Panicked msg w => Panicked msg (f w)
  end.

(** The events [evs] appended to the trace, the cache untouched. *)
Definition logged {C} (w : World C) (evs : list Event) : World C :=
  after w (c (nsc w)) evs.

(** ** A manager used with one datastore *)

(** What lines 83 to 109 make of the answer of the datastore, with no
    cache in between: the reference a cached read is compared with. *)
Definition uncached (ds : Datastore) (nsName : string) (revision : Decimal)
  : option NamespaceDefinition * option error :=
  match NamespaceCacheKey ds nsName revision with
  | inr err => (None, Some err)
  | inl _ =>
      match ds_ReadNamespace ds nsName revision with
      | inl (loaded, _) => (Some (FilterUserDefinedMetadata loaded), None)
      | inr err =>
          (None,
           Some (if errors_As_notfound err then NewNamespaceNotFoundErr nsName
                 else err))
      end
  end.

(** What [fn] returns for a call, as far as the datastore decides it. *)
Definition fetched (ds : Datastore) (nsName : string) (revision : Decimal)
  : option NamespaceDefinition * option error :=
  match ds_ReadNamespace ds nsName revision with
  | inl (loaded, _) => (Some (FilterUserDefinedMetadata loaded), None)
  | inr err => (None, Some err)
  end.

(** The cache holds, under a key, only the sanitized definition that the
    datastore [ds] has for the names and revisions with that key. *)
Definition coherent `{!Ristretto C} (ds : Datastore) (w : World C) : Prop :=
  forall nsName revision k v,
    NamespaceCacheKey ds nsName revision = inl k ->
    holds (c (nsc w)) k v ->
    fetched ds nsName revision = (Some v, None).

(** Two calls with one cache key are calls for the same content. *)
Definition same_key_same_content (ds : Datastore) : Prop :=
  forall nsName revision nsName' revision' k,
    NamespaceCacheKey ds nsName revision = inl k ->
    NamespaceCacheKey ds nsName' revision' = inl k ->
    forall v,
      fetched ds nsName revision = (Some v, None) ->
      fetched ds nsName' revision' = (Some v, None).

(** The relation check on a definition read past the cache. *)
Definition check_uncached (ds : Datastore) (namespace relation : string)
    (allowEllipsis : bool) (revision : Decimal) : option (option error) :=
  let '(config, err) := uncached ds namespace revision in
  match err with
  | Some e => Some (Some e)
  | None =>
      if allowEllipsis && String.eqb relation Ellipsis then Some None
      else
        match config with
        | None => None
        | Some config =>
            if range_Relation (Relation config) relation then Some None
            else Some (Some (NewRelationNotFoundErr namespace relation))
        end
  end.

(** A caller that reads one namespace after the other, whatever comes
    back; an answer is absent when the call panicked. *)
Fixpoint read_all `{!Ristretto C} (proto_Size : NamespaceDefinition -> Z)
    (ctx : Context) (requests : list (string * Decimal)) (w : World C)
  : list (option (option NamespaceDefinition * option error)) :=
  match requests with
  | [] => []
  | (nsName, revision) :: rest =>
      let o := ReadNamespace proto_Size ctx nsName revision w in
      returned o :: read_all proto_Size ctx rest (world_of o)
  end.

(** More counters on traces. *)
Definition is_get (ev : Event) : bool :=
  match ev with CallGet _ => true | _ => false end.

Definition is_span_start (ev : Event) : bool :=
  match ev with SpanStart _ => true | _ => false end.

Definition is_span_end (ev : Event) : bool :=
  match ev with SpanEnd => true | _ => false end.

Definition count (p : Event -> bool) (t : list Event) : nat :=
  length (List.filter p t).

(** An insert whose cost is the size of what it stores, and which stores
    a sanitized definition; any other event. *)
Definition insert_ok (proto_Size : NamespaceDefinition -> Z) (ev : Event)
  : Prop :=
  match ev with
  | CallSet _ value cost =>
      cost = proto_Size value /\ no_user_metadata value = true
  | _ => True
  end.

(** What every trace of a manager satisfies: spans are ended, an insert
    follows a fetch, a fetch follows a probe, inserts are as they should. *)
Definition trace_ok (proto_Size : NamespaceDefinition -> Z) (t : list Event)
  : Prop :=
  count is_span_start t = count is_span_end t /\
  (inserts t <= fetches t)%nat /\
  (fetches t <= count is_get t)%nat /\
  Forall (insert_ok proto_Size) t.

(** ** Calls that overlap *)

(** Several goroutines inside [ReadNamespace] at once, on one manager.
    Every goroutine runs the code of the method; between two accesses to
    what they share (the cache, the singleflight group, the datastore)
    the scheduler may switch to any other.  A goroutine is a program
    counter with the local variables alive at that point; a step runs
    one goroutine up to its next access. *)
Module Overlap.

(** What [fn] hands to [Do]: an interface value and an error. *)
Definition DoResult : Type := option NamespaceDefinition * option error.

(** Modelled from the spec: the singleflight group is an imported
    library, described as "a mapping from key to a shared, one-shot
    completion signal: the first caller for a key creates the signal and
    executes the fetch; subsequent callers for the same key attach to
    the existing signal and receive its eventual result; the entry is
    removed immediately upon completion so a later call with the same
    key starts fresh".  A [call] is such a signal: its result is absent
    until its leader has run [fn].  [call_key], [call_leader] and
    [call_fetched] are bookkeeping: the key the call was created for,
    the goroutine that created it, whether that one has asked the
    datastore yet. *)
Record call := mkCall {
  call_key : string;
  call_leader : nat;
  call_fetched : bool;
  call_result : option DoResult
}.

Inductive pc : Type :=
| AtStart
    (* entering the method; next the key derivation of line 71 *)
| AtGet (nsRevisionKey : string)
    (* next [nsc.c.Get], line 75 *)
| AtDo (nsRevisionKey : string)
    (* the cache missed; next [nsc.readNsGroup.Do], line 81 *)
| AtFetch (nsRevisionKey : string) (id : nat)
    (* leader of call [id], inside [fn]; next [ds.ReadNamespace], line 83 *)
| AtSet (nsRevisionKey : string) (id : nat) (cacheKey : string)
    (loaded : NamespaceDefinition)
    (* leader, inside [fn]; next [nsc.c.Set], line 97 *)
| AtLeave (nsRevisionKey : string) (id : nat) (r : DoResult)
    (* leader, [fn] has returned [r]; next the group publishes it *)
| Waiting (id : nat)
    (* follower of call [id], blocked inside [Do] *)
| AfterDo (id : nat) (r : DoResult)
    (* [Do] has returned [r]; next lines 102 to 109 *)
| Finished (id : option nat)
    (result : option NamespaceDefinition * option error)
    (* the method has returned; [id] is the call it went through, if any *)
| Crashed (msg : string).

(** A goroutine: the arguments of its call, the datastore found in its
    context, and where it stands. *)
Record Goroutine := mkGoroutine {
  ds : Datastore;
  nsName : string;
  revision : Decimal;
  at_pc : pc
}.

(** The goroutine [g] at the point [p]. *)
Definition jump (g : Goroutine) (p : pc) : Goroutine :=
  {| ds := ds g; nsName := nsName g; revision := revision g; at_pc := p |}.

(** The call a goroutine leads, if it leads one. *)
Definition leads (p : pc) : option nat :=
  match p with
  | AtFetch _ id => Some id
  | AtSet _ id _ _ => Some id
  | AtLeave _ id _ => Some id
  | _ => None
  end.

Definition running (p : pc) : bool :=
  match p with
  | Finished _ _ => false
  | Crashed _ => false
  | _ => true
  end.

(** Lines 102 to 109: what the method returns for what [Do] returned,
    or the message of the panic. *)
Definition after_Do (nsName : string) (r : DoResult)
  : (option NamespaceDefinition * option error) + string :=
  let '(loadedRaw, err) := r in
  if errors_As err then inl (None, Some (NewNamespaceNotFoundErr nsName))
  else
    match err with
    | Some e => inl (None, Some e)
    | None =>
        match loadedRaw with
        | Some nsDef => inl (Some nsDef, None)
        | None => inr "interface conversion: interface is nil"
        end
    end.

(** The key a goroutine's call derives. *)
Definition key_of (g : Goroutine) : string + error :=
  NamespaceCacheKey (ds g) (nsName g) (revision g).

(** The key a goroutine is inside [fn] for. *)
Definition fetching (p : pc) : option string :=
  match p with
  | AtFetch k _ => Some k
  | AtSet k _ _ _ => Some k
  | AtLeave k _ _ => Some k
  | _ => None
  end.

(** What a goroutine knows about the group at each point. *)
Definition goroutine_ok (m : gmap string nat) (calls : list call)
    (tid : nat) (g : Goroutine) : Prop :=
  match at_pc g with
  | AtStart => True
  | AtGet k => key_of g = inl k
  | AtDo k => key_of g = inl k
  | AtFetch k id =>
      key_of g = inl k /\ m !! k = Some id /\
      calls !! id = Some (mkCall k tid false None)
  | AtSet k id _ _ =>
      key_of g = inl k /\ m !! k = Some id /\
      calls !! id = Some (mkCall k tid true None)
  | AtLeave k id _ =>
      key_of g = inl k /\ m !! k = Some id /\
      calls !! id = Some (mkCall k tid true None)
  | Waiting id =>
      exists cl, calls !! id = Some cl /\ key_of g = inl (call_key cl)
  | AfterDo id r =>
      exists cl, calls !! id = Some cl /\ key_of g = inl (call_key cl) /\
                 call_result cl = Some r
  | Finished None _ => True
  | Finished (Some id) result =>
      exists cl r, calls !! id = Some cl /\ key_of g = inl (call_key cl) /\
                   call_result cl = Some r /\
                   after_Do (nsName g) r = inl result
  | Crashed _ => True
  end.

(** [calls'] is [calls] some steps later: no call is lost, and a call
    keeps its key, its leader and, once it has one, its result. *)
Definition later (calls calls' : list call) : Prop :=
  forall id cl,
    calls !! id = Some cl ->
    exists cl',
      calls' !! id = Some cl' /\ call_key cl' = call_key cl /\
      call_leader cl' = call_leader cl /\
      (forall r, call_result cl = Some r -> call_result cl' = Some r).

(** The definition in a result, if there is one, is sanitized. *)
Definition clean_result (r : DoResult) : Prop :=
  forall nsDef, r.1 = Some nsDef -> no_user_metadata nsDef = true.

(** The definitions a goroutine holds are sanitized. *)
Definition clean_pc (p : pc) : Prop :=
  match p with
  | AtSet _ _ _ loaded => no_user_metadata loaded = true
  | AtLeave _ _ r => clean_result r
  | AfterDo _ r => clean_result r
  | Finished _ result => clean_result result
  | _ => True
  end.

Section Goroutines.

Context {C : Type} `{!Ristretto C}.
Variable proto_Size : NamespaceDefinition -> Z.

(** The manager and everything its goroutines share. *)
Record System := mkSystem {
  world : World C;             (* the manager, its cache, the trace *)
  m : gmap string nat;         (* the group: the call in flight for a key *)
  calls : list call;           (* every call the group has created *)
  goroutines : list Goroutine
}.

Definition move (s : System) (tid : nat) (g : Goroutine) (p : pc)
    (w : World C) : System :=
  {| world := w;
     m := m s;
     calls := calls s;
     goroutines := <[tid := jump g p]> (goroutines s) |}.

Definition with_group (s : System) (m' : gmap string nat)
    (calls' : list call) : System :=
  {| world := world s; m := m'; calls := calls'; goroutines := goroutines s |}.

Definition set_fetched (cl : call) : call :=
  {| call_key := call_key cl; call_leader := call_leader cl;
     call_fetched := true; call_result := call_result cl |}.

Definition set_result (r : DoResult) (cl : call) : call :=
  {| call_key := call_key cl; call_leader := call_leader cl;
     call_fetched := call_fetched cl; call_result := Some r |}.

(** One step of goroutine [tid].  A goroutine that is blocked, has
    returned or does not exist leaves the system as it is. *)
Definition step (tid : nat) (s : System) : System :=
  match goroutines s !! tid with
  | None => s
  | Some g =>
      let w := world s in
      match at_pc g with
      | AtStart =>
          let w := logged w [SpanStart "ReadNamespace";
                             CallNamespaceCacheKey (nsName g) (revision g)] in
          match NamespaceCacheKey (ds g) (nsName g) (revision g) with
          | inr err =>
              move s tid g (Finished None (None, Some err))
                (logged w [SpanEnd])
          | inl nsRevisionKey => move s tid g (AtGet nsRevisionKey) w
          end
      | AtGet nsRevisionKey =>
          let w := logged w [CallGet nsRevisionKey] in
          let r := Cache_Get (c (nsc w)) nsRevisionKey in
          match r.1 with
          | Some found =>
              move s tid g (Finished None (Some found, None))
                (after w r.2 [SpanEnd])
          | None => move s tid g (AtDo nsRevisionKey) (after w r.2 [])
          end
      | AtDo nsRevisionKey =>
          match m s !! nsRevisionKey with
          | Some id => move s tid g (Waiting id) w
          | None =>
              let id := length (calls s) in
              let cl := {| call_key := nsRevisionKey; call_leader := tid;
                           call_fetched := false; call_result := None |} in
              move (with_group s (<[nsRevisionKey := id]> (m s))
                      (calls s ++ [cl]))
                tid g (AtFetch nsRevisionKey id) w
          end
      | AtFetch nsRevisionKey id =>
          let w := logged w
                     [SpanAddEvent "Read namespace from delegate (datastore)";
                      CallReadNamespace (nsName g) (revision g)] in
          let s := with_group s (m s)
                     (alter set_fetched id (calls s)) in
          match ds_ReadNamespace (ds g) (nsName g) (revision g) with
          | inr err =>
              move s tid g (AtLeave nsRevisionKey id (None, Some err)) w
          | inl (loaded, _) =>
              let loaded := FilterUserDefinedMetadata loaded in
              let w := logged w
                         [CallNamespaceCacheKey (nsName g) (revision g)] in
              match NamespaceCacheKey (ds g) (nsName g) (revision g) with
              | inr err =>
                  move s tid g (AtLeave nsRevisionKey id (None, Some err)) w
              | inl cacheKey =>
                  move s tid g (AtSet nsRevisionKey id cacheKey loaded) w
              end
          end
      | AtSet nsRevisionKey id cacheKey loaded =>
          let cost := proto_Size loaded in
          let w := logged w [CallSet cacheKey loaded cost] in
          let r := Cache_Set (c (nsc w)) cacheKey loaded cost in
          move s tid g (AtLeave nsRevisionKey id (Some loaded, None))
            (after w r.2 [SpanAddEvent "Saved to cache"])
      | AtLeave nsRevisionKey id r =>
          move (with_group s (delete nsRevisionKey (m s))
                  (alter (set_result r) id (calls s)))
            tid g (AfterDo id r) w
      | Waiting id =>
          match calls s !! id with
          | Some {| call_result := Some r |} => move s tid g (AfterDo id r) w
          | _ => s
          end
      | AfterDo id r =>
          match after_Do (nsName g) r with
          | inl result =>
              move s tid g (Finished (Some id) result) (logged w [SpanEnd])
          | inr msg => move s tid g (Crashed msg) (logged w [SpanEnd])
          end
      | Finished _ _ => s
      | Crashed _ => s
      end
  end.

(** The scheduler: the goroutine to step, time after time. *)
Definition run (schedule : list nat) (s : System) : System :=
  foldl (fun s tid => step tid s) s schedule.

(** Calls about to start on the manager of [w], none in flight. *)
Definition enter (args : list (Datastore * string * Decimal))
  : list Goroutine :=
  map (fun a => {| ds := a.1.1; nsName := a.1.2; revision := a.2;
                   at_pc := AtStart |}) args.

Definition start (w : World C) (args : list (Datastore * string * Decimal))
  : System :=
  {| world := w; m := ∅; calls := []; goroutines := enter args |}.



(** One goroutine, alone on the manager. *)
Definition solo (store : Datastore) (name : string) (rev : Decimal)
    (w : World C) (m : gmap string nat) (calls : list call) (p : pc)
  : System :=
  {| world := w; m := m; calls := calls;
     goroutines := [mkGoroutine store name rev p] |}.

(** The invariant of a system that started with the trace [t0]. *)
Record invariant (t0 : list Event) (s : System) : Prop := {
  inv_goroutines : forall tid g,
    goroutines s !! tid = Some g -> goroutine_ok (m s) (calls s) tid g;
  inv_in_flight : forall k id,
    m s !! k = Some id ->
    exists cl g,
      calls s !! id = Some cl /\ call_key cl = k /\ call_result cl = None /\
      goroutines s !! call_leader cl = Some g /\ leads (at_pc g) = Some id;
  inv_pending : forall id cl,
    calls s !! id = Some cl -> call_result cl = None ->
    m s !! call_key cl = Some id;
  inv_fetches :
    fetches (trace (world s)) =
    (fetches t0 + length (List.filter call_fetched (calls s)))%nat
}.

(** Cache, group and goroutines hold sanitized definitions only. *)
Record clean_system (s : System) : Prop := {
  clean_cache : sanitized_cache (world s);
  clean_calls : forall id cl r,
    calls s !! id = Some cl -> call_result cl = Some r -> clean_result r;
  clean_goroutines : forall tid g,
    goroutines s !! tid = Some g -> clean_pc (at_pc g)
}.

End Goroutines.

Arguments System C : clear implicits.

(** *** Progress *)

(** How many steps a goroutine has before it at most. *)
Definition rank (p : pc) : nat :=
  match p with
  | AtStart => 8
  | AtGet _ => 7
  | AtDo _ => 6
  | AtFetch _ _ => 5
  | AtSet _ _ _ _ => 4
  | AtLeave _ _ _ => 3
  | Waiting _ => 2
  | AfterDo _ _ => 1
  | Finished _ _ => 0
  | Crashed _ => 0
  end.

Definition total (gs : list Goroutine) : nat :=
  sum_list (rank <$> (at_pc <$> gs)).

(** A goroutine whose next step moves it: it has not returned, and when
    it waits for a call, the result of that call is there. *)
Definition ready (calls : list call) (p : pc) : bool :=
  match p with
  | Finished _ _ => false
  | Crashed _ => false
  | Waiting id =>
      match calls !! id with
      | Some {| call_result := Some _ |} => true
      | _ => false
      end
  | _ => true
  end.

(** The fair scheduler: [n] rounds in which each of [K] goroutines gets
    one step. *)
Fixpoint rounds (n K : nat) : list nat :=
  match n with
  | O => []
  | S n => rounds n K ++ seq 0 K
  end.

(** No goroutine has crashed, and none holds a result the lines after
    [Do] would crash on. *)
Definition sound_result (r : DoResult) : Prop := r <> (None, None).

Definition sound_pc (p : pc) : Prop :=
  match p with
  | AtLeave _ _ r => sound_result r
  | AfterDo _ r => sound_result r
  | Crashed _ => False
  | _ => True
  end.

(** What a goroutine holds is what the datastore [store] has for its
    own name and revision. *)
Definition agrees_pc (store : Datastore) (g : Goroutine) : Prop :=
  match at_pc g with
  | AtSet k _ cacheKey loaded =>
      cacheKey = k /\
      fetched store (nsName g) (revision g) = (Some loaded, None)
  | AtLeave _ _ r => r = fetched store (nsName g) (revision g)
  | AfterDo _ r => r = fetched store (nsName g) (revision g)
  | Finished _ result => result = uncached store (nsName g) (revision g)
  | _ => True
  end.

(** One cache key stands for one name and one answer of the datastore. *)
Definition key_faithful (store : Datastore) : Prop :=
  forall name rev name' rev' k,
    NamespaceCacheKey store name rev = inl k ->
    NamespaceCacheKey store name' rev' = inl k ->
    name = name' /\ fetched store name rev = fetched store name' rev'.

Section Systems.

Context {C : Type} `{!Ristretto C}.

Record sound_system (s : System C) : Prop := {
  sound_calls : forall id cl r,
    calls s !! id = Some cl -> call_result cl = Some r -> sound_result r;
  sound_goroutines : forall tid g,
    goroutines s !! tid = Some g -> sound_pc (at_pc g)
}.

(** Cache, group and goroutines agree with the datastore [store], which
    is the datastore of every goroutine. *)
Record agrees (store : Datastore) (s : System C) : Prop := {
  agrees_cache : coherent store (world s);
  agrees_calls : forall id cl r,
    calls s !! id = Some cl -> call_result cl = Some r ->
    exists name rev,
      NamespaceCacheKey store name rev = inl (call_key cl) /\
      r = fetched store name rev;
  agrees_goroutines : forall tid g,
    goroutines s !! tid = Some g -> ds g = store /\ agrees_pc store g
}.

End Systems.

(** *** Outcomes *)



Section Outcomes.

Context {C : Type} `{!Ristretto C}.
Variable proto_Size : NamespaceDefinition -> Z.




End Outcomes.

End Overlap.

(** ** A cache, a datastore and a builder to run the manager on *)

(** A cache that keeps every item whose cost fits its budget and drops
    the others, and never evicts. *)
Record mapCache := mkMapCache {
  items : gmap string NamespaceDefinition;
  budget : Z
}.

Definition mapCache_New (config : Config) : mapCache + error :=
  if (NumCounters config =? 0)%Z
  then inr (errorString "NumCounters can't be zero")
  else if (MaxCost config =? 0)%Z then inr (errorString "MaxCost can't be zero")
  else if (BufferItems config =? 0)%Z
       then inr (errorString "BufferItems can't be zero")
  else inl {| items := ∅; budget := MaxCost config |}.

Definition mapCache_Get (cache : mapCache) (key : string)
  : option NamespaceDefinition * mapCache :=
  (items cache !! key, cache).

Definition mapCache_Set (cache : mapCache) (key : string)
    (value : NamespaceDefinition) (cost : Z) : bool * mapCache :=
  if (cost <=? budget cache)%Z
  then (true, {| items := <[key := value]> (items cache);
                 budget := budget cache |})
  else (false, cache).

Definition mapCache_Close (cache : mapCache) : mapCache := cache.

Definition mapCache_holds (cache : mapCache) (key : string)
    (value : NamespaceDefinition) : Prop :=
  items cache !! key = Some value.

Definition comment (text : string) : Metadata :=
  {| MetadataMessage :=
       [{| TypeUrl := "impl.v1.DocComment"; Value := text |}] |}.

Definition document : NamespaceDefinition :=
  {| NamespaceDefinition_Name := "document";
     Relation :=
       [{| Name := "viewer"; Relation_UsersetRewrite := None;
           Relation_Metadata := Some (comment "who may read");
           Relation_TypeInformation := None |};
        {| Name := "editor"; Relation_UsersetRewrite := None;
           Relation_Metadata := None; Relation_TypeInformation := None |}];
     NamespaceDefinition_Metadata := Some (comment "a document") |}.

Definition group : NamespaceDefinition :=
  {| NamespaceDefinition_Name := "group";
     Relation :=
       [{| Name := "member"; Relation_UsersetRewrite := None;
           Relation_Metadata := None; Relation_TypeInformation := None |};
        {| Name := "member"; Relation_UsersetRewrite := None;
           Relation_Metadata := None; Relation_TypeInformation := None |}];
     NamespaceDefinition_Metadata := None |}.

(** A datastore with two namespaces, one that cannot be reached, and
    revisions 0 to 9. *)
Definition toy_ReadNamespace (nsName : string) (revision : Decimal)
  : (NamespaceDefinition * Decimal) + error :=
  if String.eqb nsName "document" then inl (document, revision)
  else if String.eqb nsName "group" then inl (group, revision)
  else if String.eqb nsName "folder" then inr (errorString "connection reset")
  else if String.eqb nsName "team"
       then inr (wrapError "reading namespace: %w"
                   (datastore_ErrNamespaceNotFound nsName))
  else inr (datastore_ErrNamespaceNotFound nsName).

Definition toy_NamespaceCacheKey (nsName : string) (revision : Decimal)
  : string + error :=
  if ((dec_exp revision =? 0) && (0 <=? dec_value revision)
      && (dec_value revision <? 10))%Z
  then inl (nsName ++ "@" ++
            String (Ascii.ascii_of_N (48 + Z.to_N (dec_value revision))) "")
  else inr (errorString "invalid revision").

Definition toy : Datastore :=
  {| ds_ReadNamespace := toy_ReadNamespace;
     NamespaceCacheKey := toy_NamespaceCacheKey |}.

Definition toy_Size (nsDef : NamespaceDefinition) : Z :=
  Z.of_nat (String.length (NamespaceDefinition_Name nsDef)) +
  2 * Z.of_nat (length (Relation nsDef)).

(** A builder that lists the relations and refuses duplicates. *)
Definition toy_Build (nsDef : option NamespaceDefinition) (revision : Decimal)
  : option (list string) * option error :=
  match nsDef with
  | None => (None, Some (errorString "no definition"))
  | Some nsDef =>
      let names := map Name (Relation nsDef) in
      if bool_decide (NoDup names) then (Some names, None)
      else (None, Some (errorString "found duplicate relation"))
  end.

Definition rev1 : Decimal := {| dec_value := 1; dec_exp := 0 |}.

(** A manager fresh from the constructor, with the default cache. *)
Definition fresh : World mapCache :=
  {| nsc := {| expiration := 0;
               c := {| items := ∅; budget := 16777216 |} |};
     trace := [] |}.

(** The world after a first read of the document at revision 1: the
    sanitized document is in the cache. *)
Definition cached : World mapCache :=
  let nsDef := FilterUserDefinedMetadata document in
  {| nsc := {| expiration := 0;
               c := {| items := {["document@1" := nsDef]};
                       budget := 16777216 |} |};
     trace :=
       [SpanStart "ReadNamespace"; CallNamespaceCacheKey "document" rev1;
        CallGet "document@1";
        SpanAddEvent "Read namespace from delegate (datastore)";
        CallReadNamespace "document" rev1;
        CallNamespaceCacheKey "document" rev1;
        CallSet "document@1" nsDef 12;
        SpanAddEvent "Saved to cache"; SpanEnd] |}.

(** Two calls for the same namespace at the same revision. *)
Definition twice : list (Datastore * string * Decimal) :=
  [(toy, "document", rev1); (toy, "document", rev1)].

(** The second goroutine enters the group while the first is inside
    [fn]: it waits and shares the result. *)
Definition meeting : list nat := [0; 1; 0; 1; 0; 1; 0; 0; 0; 1; 0; 1]%nat.


(** The toy datastore behind keys that are the names alone: the
    revisions of a namespace share one cache entry and one content. *)
Definition flat : Datastore :=
  {| ds_ReadNamespace := toy_ReadNamespace;
     NamespaceCacheKey := fun nsName _ => inl nsName |}.

Definition rev2 : Decimal := {| dec_value := 2; dec_exp := 0 |}.

(** Reads that come back to a namespace after others. *)
Definition requests : list (string * Decimal) :=
  [("document", rev1); ("user", rev1); ("folder", rev2); ("document", rev2)].

(** Two calls for one key through [flat], at two revisions. *)
Definition twice_flat : list (Datastore * string * Decimal) :=
  [(flat, "document", rev1); (flat, "document", rev2)].

(** * Properties *)

(** ** The toy cache is a cache *)

Lemma mapCache_holds_New config cache k v :
  mapCache_New config = inl cache -> ~ mapCache_holds cache k v.
Proof.
  unfold mapCache_New, mapCache_holds.
  repeat case_match; intros [= <-]; cbn. by rewrite lookup_empty.
Qed.

Lemma mapCache_holds_Set cache key value cost k v :
  mapCache_holds (mapCache_Set cache key value cost).2 k v ->
  mapCache_holds cache k v \/ (k = key /\ v = value).
Proof.
  unfold mapCache_Set, mapCache_holds. case_match; cbn; [|auto].
  destruct (decide (key = k)) as [->|Hne].
  - rewrite lookup_insert_eq. intros [= ->]. auto.
  - rewrite lookup_insert_ne by done. auto.
Qed.

#[export] Instance mapCache_Ristretto : Ristretto mapCache := {|
  NewCache := mapCache_New;
  Cache_Get := mapCache_Get;
  Cache_Set := mapCache_Set;
  Cache_Close := mapCache_Close;
  holds := mapCache_holds;
  holds_NewCache := mapCache_holds_New;
  Cache_Get_holds := fun cache key v H => H;
  holds_Cache_Get := fun cache key k v H => H;
  holds_Cache_Set := mapCache_holds_Set;
  holds_Cache_Close := fun cache k v H => H
|}.

Ltac exec :=
  cbv [ReadNamespace Do defer bind ret panic MustFromContext
       call_NamespaceCacheKey call_ReadNamespace c_Get c_Set c_Close
       tracer_Start span_AddEvent span_End emit with_cache after
       ContextWithDatastore world_of];
  cbn [ctx_datastore nsc trace c expiration].

Ltac tidy := rewrite <- ?app_assoc; cbn [app]; try reflexivity.

Ltac open_world w := destruct w as [[? ?] ?].

Ltac unfold_ReadNamespaceAndTypes := unfold ReadNamespaceAndTypes, bind.
Ltac unfold_CheckNamespaceAndRelation :=
  unfold CheckNamespaceAndRelation, bind.

Section ManagerFacts.

Context {C : Type} `{!Ristretto C}.
Variable proto_Size : NamespaceDefinition -> Z.
Variable NamespaceTypeSystem : Type.
Variable BuildNamespaceTypeSystemForManager :
  option NamespaceDefinition -> Decimal ->
  option NamespaceTypeSystem * option error.

Abbreviation ReadNamespace := (ReadNamespace proto_Size).
Abbreviation ReadNamespaceAndTypes :=
  (ReadNamespaceAndTypes proto_Size NamespaceTypeSystem
     BuildNamespaceTypeSystemForManager).
Abbreviation CheckNamespaceAndRelation :=
  (CheckNamespaceAndRelation proto_Size).

(** *** The paths through [ReadNamespace] *)

Lemma ReadNamespace_no_datastore nsName revision (w : World C) :
  ReadNamespace {| ctx_datastore := None |} nsName revision w =
  Panicked "datastore middleware did not inject datastore"
    (after w (c (nsc w)) [SpanStart "ReadNamespace"; SpanEnd]).
Proof. open_world w. exec. tidy. Qed.

Lemma ReadNamespace_key_error ds nsName revision (w : World C) err :
  NamespaceCacheKey ds nsName revision = inr err ->
  ReadNamespace (ContextWithDatastore ds) nsName revision w =
  Returned (None, Some err)
    (after w (c (nsc w))
       [SpanStart "ReadNamespace"; CallNamespaceCacheKey nsName revision;
        SpanEnd]).
Proof. intros Hk. open_world w. exec. rewrite Hk. exec. tidy. Qed.

Lemma ReadNamespace_hit ds nsName revision (w : World C) key v :
  NamespaceCacheKey ds nsName revision = inl key ->
  (Cache_Get (c (nsc w)) key).1 = Some v ->
  ReadNamespace (ContextWithDatastore ds) nsName revision w =
  Returned (Some v, None)
    (after w (Cache_Get (c (nsc w)) key).2
       [SpanStart "ReadNamespace"; CallNamespaceCacheKey nsName revision;
        CallGet key; SpanEnd]).
Proof.
  intros Hk Hg. open_world w. cbn [nsc c] in Hg.
  exec. rewrite Hk. exec. rewrite Hg. exec. tidy.
Qed.

Lemma ReadNamespace_fetch_error ds nsName revision (w : World C) key err :
  NamespaceCacheKey ds nsName revision = inl key ->
  (Cache_Get (c (nsc w)) key).1 = None ->
  ds_ReadNamespace ds nsName revision = inr err ->
  ReadNamespace (ContextWithDatastore ds) nsName revision w =
  Returned
    (None,
     Some (if errors_As_notfound err then NewNamespaceNotFoundErr nsName
           else err))
    (after w (Cache_Get (c (nsc w)) key).2
       [SpanStart "ReadNamespace"; CallNamespaceCacheKey nsName revision;
        CallGet key;
        SpanAddEvent "Read namespace from delegate (datastore)";
        CallReadNamespace nsName revision; SpanEnd]).
Proof.
  intros Hk Hg Hf. open_world w. cbn [nsc c] in Hg.
  exec. rewrite Hk. exec. rewrite Hg. exec. rewrite Hf. exec.
  cbn [errors_As]. destruct (errors_As_notfound err); exec; tidy.
Qed.

Lemma ReadNamespace_miss ds nsName revision (w : World C) key loaded rev :
  NamespaceCacheKey ds nsName revision = inl key ->
  (Cache_Get (c (nsc w)) key).1 = None ->
  ds_ReadNamespace ds nsName revision = inl (loaded, rev) ->
  let nsDef := FilterUserDefinedMetadata loaded in
  ReadNamespace (ContextWithDatastore ds) nsName revision w =
  Returned (Some nsDef, None)
    (after w
       (Cache_Set (Cache_Get (c (nsc w)) key).2 key nsDef (proto_Size nsDef)).2
       [SpanStart "ReadNamespace"; CallNamespaceCacheKey nsName revision;
        CallGet key;
        SpanAddEvent "Read namespace from delegate (datastore)";
        CallReadNamespace nsName revision;
        CallNamespaceCacheKey nsName revision;
        CallSet key nsDef (proto_Size nsDef);
        SpanAddEvent "Saved to cache"; SpanEnd]).
Proof.
  intros Hk Hg Hf nsDef. open_world w. cbn [nsc c] in Hg.
  exec. rewrite Hk. exec. rewrite Hg. exec. rewrite Hf.
  exec. cbn [errors_As]. exec. tidy.
Qed.

(** Every call leaves [ReadNamespace] on one of five paths. *)
Inductive ReadNamespace_path (ctx : Context) (nsName : string)
    (revision : Decimal) (w : World C)
  : Outcome (option NamespaceDefinition * option error) -> Prop :=
| path_no_datastore :
    ctx_datastore ctx = None ->
    ReadNamespace_path ctx nsName revision w
      (Panicked "datastore middleware did not inject datastore"
         (after w (c (nsc w)) [SpanStart "ReadNamespace"; SpanEnd]))
| path_key_error ds err :
    ctx_datastore ctx = Some ds ->
    NamespaceCacheKey ds nsName revision = inr err ->
    ReadNamespace_path ctx nsName revision w
      (Returned (None, Some err)
         (after w (c (nsc w))
            [SpanStart "ReadNamespace"; CallNamespaceCacheKey nsName revision;
             SpanEnd]))
| path_hit ds key v :
    ctx_datastore ctx = Some ds ->
    NamespaceCacheKey ds nsName revision = inl key ->
    (Cache_Get (c (nsc w)) key).1 = Some v ->
    ReadNamespace_path ctx nsName revision w
      (Returned (Some v, None)
         (after w (Cache_Get (c (nsc w)) key).2
            [SpanStart "ReadNamespace"; CallNamespaceCacheKey nsName revision;
             CallGet key; SpanEnd]))
| path_fetch_error ds key err :
    ctx_datastore ctx = Some ds ->
    NamespaceCacheKey ds nsName revision = inl key ->
    (Cache_Get (c (nsc w)) key).1 = None ->
    ds_ReadNamespace ds nsName revision = inr err ->
    ReadNamespace_path ctx nsName revision w
      (Returned
         (None,
          Some (if errors_As_notfound err then NewNamespaceNotFoundErr nsName
                else err))
         (after w (Cache_Get (c (nsc w)) key).2
            [SpanStart "ReadNamespace"; CallNamespaceCacheKey nsName revision;
             CallGet key;
             SpanAddEvent "Read namespace from delegate (datastore)";
             CallReadNamespace nsName revision; SpanEnd]))
| path_miss ds key loaded rev :
    ctx_datastore ctx = Some ds ->
    NamespaceCacheKey ds nsName revision = inl key ->
    (Cache_Get (c (nsc w)) key).1 = None ->
    ds_ReadNamespace ds nsName revision = inl (loaded, rev) ->
    let nsDef := FilterUserDefinedMetadata loaded in
    ReadNamespace_path ctx nsName revision w
      (Returned (Some nsDef, None)
         (after w
            (Cache_Set (Cache_Get (c (nsc w)) key).2 key nsDef
               (proto_Size nsDef)).2
            [SpanStart "ReadNamespace"; CallNamespaceCacheKey nsName revision;
             CallGet key;
             SpanAddEvent "Read namespace from delegate (datastore)";
             CallReadNamespace nsName revision;
             CallNamespaceCacheKey nsName revision;
             CallSet key nsDef (proto_Size nsDef);
             SpanAddEvent "Saved to cache"; SpanEnd])).

Lemma ReadNamespace_paths ctx nsName revision (w : World C) :
  ReadNamespace_path ctx nsName revision w
    (ReadNamespace ctx nsName revision w).
Proof.
  destruct ctx as [[ds|]].
  - change {| ctx_datastore := Some ds |} with (ContextWithDatastore ds).
    destruct (NamespaceCacheKey ds nsName revision) as [key|err] eqn:Hk.
    + destruct (Cache_Get (c (nsc w)) key).1 as [v|] eqn:Hg.
      * rewrite (ReadNamespace_hit _ _ _ _ _ _ Hk Hg).
        by eapply path_hit.
      * destruct (ds_ReadNamespace ds nsName revision) as [[loaded rev]|err]
          eqn:Hf.
        -- rewrite (ReadNamespace_miss _ _ _ _ _ _ _ Hk Hg Hf).
           by eapply path_miss.
        -- rewrite (ReadNamespace_fetch_error _ _ _ _ _ _ Hk Hg Hf).
           by eapply path_fetch_error.
    + rewrite (ReadNamespace_key_error _ _ _ _ _ Hk).
      by eapply path_key_error.
  - rewrite ReadNamespace_no_datastore. by apply path_no_datastore.
Qed.

(** *** What a call leaves behind *)

Lemma fetches_app t evs : fetches (t ++ evs) = (fetches t + fetches evs)%nat.
Proof. unfold fetches. by rewrite List.filter_app, length_app. Qed.

Lemma inserts_app t evs : inserts (t ++ evs) = (inserts t + inserts evs)%nat.
Proof. unfold inserts. by rewrite List.filter_app, length_app. Qed.

Lemma builds_app t evs : builds (t ++ evs) = (builds t + builds evs)%nat.
Proof. unfold builds. by rewrite List.filter_app, length_app. Qed.

(** A successful read returns a definition, never a nil pointer. *)
Lemma ReadNamespace_returns_one ctx nsName revision (w : World C) nsDef err w' :
  ReadNamespace ctx nsName revision w = Returned (nsDef, err) w' ->
  (is_Some nsDef /\ err = None) \/ (nsDef = None /\ is_Some err).
Proof.
  intros Hr. destruct (ReadNamespace_paths ctx nsName revision w);
    inversion Hr; subst; eauto.
Qed.

(** [ReadNamespace] never asks for a type system. *)
Lemma ReadNamespace_builds ctx nsName revision (w : World C) :
  builds (trace (world_of (ReadNamespace ctx nsName revision w))) =
  builds (trace w).
Proof.
  destruct (ReadNamespace_paths ctx nsName revision w);
    cbn [world_of after trace]; rewrite builds_app; cbn; lia.
Qed.

(** What the cache holds after a read, it held before or is the sanitized
    definition the read fetched. *)
Lemma ReadNamespace_holds ctx nsName revision (w : World C) k v :
  holds (c (nsc (world_of (ReadNamespace ctx nsName revision w)))) k v ->
  holds (c (nsc w)) k v \/
  exists loaded, v = FilterUserDefinedMetadata loaded.
Proof.
  destruct (ReadNamespace_paths ctx nsName revision w);
    cbn [world_of after nsc c]; intros Hh; eauto using holds_Cache_Get.
  apply holds_Cache_Set in Hh as [Hh|[_ ->]]; eauto using holds_Cache_Get.
Qed.

Lemma FilterUserDefinedMetadata_clean loaded :
  no_user_metadata (FilterUserDefinedMetadata loaded) = true.
Proof.
  unfold no_user_metadata, FilterUserDefinedMetadata.
  cbn [NamespaceDefinition_Metadata Relation].
  induction (Relation loaded) as [|relation relations IH]; [done|].
  cbn. exact IH.
Qed.

(** *** Sanitization is an invariant of the manager *)

Lemma ReadNamespace_keeps_sanitized ctx nsName revision (w : World C) :
  sanitized_cache w ->
  sanitized_cache (world_of (ReadNamespace ctx nsName revision w)).
Proof.
  intros Hw k v Hh. apply ReadNamespace_holds in Hh as [Hh|[loaded ->]].
  - by eapply Hw.
  - apply FilterUserDefinedMetadata_clean.
Qed.

Lemma ReadNamespaceAndTypes_world ctx nsName revision (w : World C) :
  c (nsc (world_of (ReadNamespaceAndTypes ctx nsName revision w))) =
  c (nsc (world_of (ReadNamespace ctx nsName revision w))).
Proof.
  unfold_ReadNamespaceAndTypes.
  destruct (ReadNamespace ctx nsName revision w) as [[nsDef [e|]] w1|msg w1];
    try reflexivity.
  destruct (BuildNamespaceTypeSystemForManager nsDef revision); reflexivity.
Qed.

Lemma CheckNamespaceAndRelation_world ctx namespace relation allowEllipsis
    revision (w : World C) :
  world_of (CheckNamespaceAndRelation ctx namespace relation allowEllipsis
              revision w) =
  world_of (ReadNamespace ctx namespace revision w).
Proof.
  unfold_CheckNamespaceAndRelation.
  destruct (ReadNamespace ctx namespace revision w)
    as [[config [e|]] w1|msg w1]; try reflexivity.
  destruct (allowEllipsis && String.eqb relation Ellipsis); [reflexivity|].
  destruct config as [config|]; [|reflexivity].
  destruct (range_Relation (Relation config) relation); reflexivity.
Qed.

Lemma reachable_sanitized (w : World C) :
  reachable proto_Size NamespaceTypeSystem
    BuildNamespaceTypeSystemForManager w ->
  sanitized_cache w.
Proof.
  induction 1 as [expiration cacheConfig manager Hnew
                 | ctx nsName revision w _ IH
                 | ctx nsName revision w _ IH
                 | ctx namespace relation allowEllipsis revision w _ IH
                 | w _ IH].
  - intros k v Hh. unfold NewCachingNamespaceManager in Hnew.
    destruct (NewCache _) as [cache|err] eqn:Hc; inversion Hnew; subst.
    by apply (holds_NewCache _ _ _ _ Hc) in Hh.
  - by apply ReadNamespace_keeps_sanitized.
  - intros k v. rewrite ReadNamespaceAndTypes_world.
    by apply ReadNamespace_keeps_sanitized.
  - rewrite CheckNamespaceAndRelation_world.
    by apply ReadNamespace_keeps_sanitized.
  - intros k v Hh. apply holds_Cache_Close in Hh. by eapply IH.
Qed.

(** A read answers a sanitized definition whenever the cache is
    sanitized, on a hit and on a miss. *)
Lemma ReadNamespace_clean ctx nsName revision (w : World C) nsDef err :
  sanitized_cache w ->
  returned (ReadNamespace ctx nsName revision w) = Some (Some nsDef, err) ->
  no_user_metadata nsDef = true.
Proof.
  intros Hw Hr.
  destruct (ReadNamespace_paths ctx nsName revision w) as [| | ? ? ? ? ? Hg| |];
    inversion Hr; subst.
  - apply Hw with key. by apply Cache_Get_holds.
  - apply FilterUserDefinedMetadata_clean.
Qed.

(** *** The claims about [ReadNamespace] *)

(** C1. When the fetch from the datastore reports that the namespace was
    not found, [ReadNamespace] returns the NamespaceNotFound error for
    the requested name; any other error of the fetch, and any error of
    the key derivation [NamespaceCacheKey], comes back as it is. *)
Theorem ReadNamespace_error_translation ds nsName revision (w : World C) :
  (forall err,
     NamespaceCacheKey ds nsName revision = inr err ->
     returned (ReadNamespace (ContextWithDatastore ds) nsName revision w) =
     Some (None, Some err)) /\
  (forall key err,
     NamespaceCacheKey ds nsName revision = inl key ->
     (Cache_Get (c (nsc w)) key).1 = None ->
     ds_ReadNamespace ds nsName revision = inr err ->
     errors_As (Some err) = true ->
     returned (ReadNamespace (ContextWithDatastore ds) nsName revision w) =
     Some (None, Some (NewNamespaceNotFoundErr nsName))) /\
  (forall key err,
     NamespaceCacheKey ds nsName revision = inl key ->
     (Cache_Get (c (nsc w)) key).1 = None ->
     ds_ReadNamespace ds nsName revision = inr err ->
     errors_As (Some err) = false ->
     returned (ReadNamespace (ContextWithDatastore ds) nsName revision w) =
     Some (None, Some err)).
Proof.
  split; [|split].
  - intros err Hk. by rewrite (ReadNamespace_key_error _ _ _ _ _ Hk).
  - intros key err Hk Hg Hf Has. cbn in Has.
    by rewrite (ReadNamespace_fetch_error _ _ _ _ _ _ Hk Hg Hf), Has.
  - intros key err Hk Hg Hf Has. cbn in Has.
    by rewrite (ReadNamespace_fetch_error _ _ _ _ _ _ Hk Hg Hf), Has.
Qed.

(** C2. On the miss path, when the fetch succeeds, the definition
    returned and the definition stored in the cache are both
    [FilterUserDefinedMetadata] of the fetched one; and a manager, from
    its construction on and whatever was called on it, never returns a
    definition with a user-defined metadata field, be it from the cache
    or from the datastore. *)
Theorem ReadNamespace_sanitizes :
  (forall ds nsName revision (w : World C) key loaded rev,
     NamespaceCacheKey ds nsName revision = inl key ->
     (Cache_Get (c (nsc w)) key).1 = None ->
     ds_ReadNamespace ds nsName revision = inl (loaded, rev) ->
     let nsDef := FilterUserDefinedMetadata loaded in
     exists w',
       ReadNamespace (ContextWithDatastore ds) nsName revision w =
       Returned (Some nsDef, None) w' /\
       List.filter is_insert (drop (length (trace w)) (trace w')) =
       [CallSet key nsDef (proto_Size nsDef)] /\
       c (nsc w') =
       (Cache_Set (Cache_Get (c (nsc w)) key).2 key nsDef
          (proto_Size nsDef)).2) /\
  (forall (w : World C) ctx nsName revision,
     reachable proto_Size NamespaceTypeSystem
       BuildNamespaceTypeSystemForManager w ->
     (forall nsDef err,
        returned (ReadNamespace ctx nsName revision w) =
        Some (Some nsDef, err) ->
        no_user_metadata nsDef = true) /\
     (forall nsDef ts err,
        returned (ReadNamespaceAndTypes ctx nsName revision w) =
        Some (Some nsDef, ts, err) ->
        no_user_metadata nsDef = true)).
Proof.
  split.
  - intros ds nsName revision w key loaded rev Hk Hg Hf nsDef.
    eexists. split; [exact (ReadNamespace_miss _ _ _ _ _ _ _ Hk Hg Hf)|].
    cbn [after trace nsc c]. split; [|reflexivity].
    by rewrite drop_app_length.
  - intros w ctx nsName revision Hw%reachable_sanitized. split.
    + intros nsDef err. by apply ReadNamespace_clean.
    + intros nsDef ts err.
      unfold_ReadNamespaceAndTypes.
      pose proof (ReadNamespace_clean ctx nsName revision w) as Hclean.
      destruct (ReadNamespace ctx nsName revision w)
        as [[nsDef' [e|]] w1|msg w1]; cbn [returned ret] in *.
      * intros [= -> _ _]. by eapply Hclean.
      * destruct (BuildNamespaceTypeSystemForManager nsDef' revision).
        cbn [returned]. intros [= -> _ _]. by eapply Hclean.
      * done.
Qed.

(** C3. When the cache has an entry for the derived key, [ReadNamespace]
    returns that entry with a nil error, and the datastore is not asked
    to read the namespace: the trace gains no fetch (and no insert). *)
Theorem ReadNamespace_cache_hit ds nsName revision (w : World C) key v :
  NamespaceCacheKey ds nsName revision = inl key ->
  (Cache_Get (c (nsc w)) key).1 = Some v ->
  exists w',
    ReadNamespace (ContextWithDatastore ds) nsName revision w =
    Returned (Some v, None) w' /\
    fetches (trace w') = fetches (trace w) /\
    inserts (trace w') = inserts (trace w) /\
    Forall (fun ev => is_fetch ev = false) (drop (length (trace w)) (trace w')).
Proof.
  intros Hk Hg. eexists.
  split; [exact (ReadNamespace_hit _ _ _ _ _ _ Hk Hg)|].
  cbn [after trace]. rewrite fetches_app, inserts_app, drop_app_length.
  repeat split; [cbn; lia | cbn; lia |].
  repeat constructor.
Qed.

(** C9. A call of [ReadNamespace] that returns an error stores nothing:
    its trace gains no insert, and the cache holds nothing it did not
    hold before the call. *)
Theorem ReadNamespace_error_inserts_nothing ctx nsName revision (w : World C)
    nsDef err w' :
  ReadNamespace ctx nsName revision w = Returned (nsDef, Some err) w' ->
  inserts (trace w') = inserts (trace w) /\
  Forall (fun ev => is_insert ev = false)
    (drop (length (trace w)) (trace w')) /\
  (forall k v, holds (c (nsc w')) k v -> holds (c (nsc w)) k v).
Proof.
  intros Hr.
  destruct (ReadNamespace_paths ctx nsName revision w);
    inversion Hr; subst; cbn [after trace nsc c];
    rewrite inserts_app, drop_app_length;
    (repeat split; [cbn; lia | repeat constructor |]);
    eauto using holds_Cache_Get.
Qed.

(** *** The claims about the other methods *)

Lemma range_Relation_spec relations relation :
  range_Relation relations relation = true <->
  exists rel, In rel relations /\ Name rel = relation.
Proof.
  induction relations as [|rel rest IH]; cbn [range_Relation In].
  - split; [done|]. by intros (? & [] & _).
  - destruct (String.eqb_spec (Name rel) relation) as [Heq|Hne].
    + split; [|done]. intros _. exists rel. auto.
    + rewrite IH. split.
      * intros (rel' & Hin & Hname). exists rel'. auto.
      * intros (rel' & [->|Hin] & Hname); [done|]. exists rel'. auto.
Qed.

(** C4. When [ReadNamespace] succeeds with the definition [D],
    [CheckNamespaceAndRelation] returns nil exactly when the ellipsis is
    allowed and asked for, or the relation is the name of a relation of
    [D]; otherwise it returns the RelationNotFound error for the
    namespace and the relation.  It leaves the world as the read left
    it: the check itself touches neither cache nor datastore. *)
Theorem CheckNamespaceAndRelation_spec ctx namespace relation allowEllipsis
    revision (w : World C) D w1 :
  ReadNamespace ctx namespace revision w = Returned (Some D, None) w1 ->
  exists res,
    CheckNamespaceAndRelation ctx namespace relation allowEllipsis revision w =
    Returned res w1 /\
    (res = None <->
     (allowEllipsis = true /\ relation = Ellipsis) \/
     (exists rel, In rel (Relation D) /\ Name rel = relation)) /\
    (res <> None ->
     res = Some (NewRelationNotFoundErr namespace relation)).
Proof.
  intros Hr. unfold_CheckNamespaceAndRelation. rewrite Hr.
  destruct allowEllipsis; cbn [andb].
  - destruct (String.eqb_spec relation Ellipsis) as [->|Hne].
    + exists None. repeat split; auto. done.
    + pose proof (range_Relation_spec (Relation D) relation) as Hspec.
      destruct (range_Relation (Relation D) relation).
      * exists None. repeat split; [|done].
        intros _. right. by apply Hspec.
      * eexists. split; [reflexivity|]. split; [|done].
        split; [done|]. intros [[_ ?]|Hex]; [done|].
        apply Hspec in Hex. done.
  - pose proof (range_Relation_spec (Relation D) relation) as Hspec.
    destruct (range_Relation (Relation D) relation).
    + exists None. repeat split; [|done].
      intros _. right. by apply Hspec.
    + eexists. split; [reflexivity|]. split; [|done].
      split; [done|]. intros [[? _]|Hex]; [done|].
      apply Hspec in Hex. done.
Qed.

(** C5. [ReadNamespaceAndTypes] gets the definition from [ReadNamespace]
    and, each time the read succeeds (from the cache or from the
    datastore), asks the builder for the type system anew: the trace
    gains exactly one build, the cache is as the read left it, and the
    definition is returned next to whatever the builder answers, a build
    error included.  When the read fails, its error is returned and
    nothing is built. *)
Theorem ReadNamespaceAndTypes_rebuilds ctx nsName revision (w : World C) :
  match ReadNamespace ctx nsName revision w with
  | Returned (nsDef, None) w1 =>
      let built := BuildNamespaceTypeSystemForManager nsDef revision in
      is_Some nsDef /\
      ReadNamespaceAndTypes ctx nsName revision w =
      Returned (nsDef, built.1, built.2)
        (after w1 (c (nsc w1)) [CallBuildTypeSystem nsDef revision]) /\
      builds (trace w1 ++ [CallBuildTypeSystem nsDef revision]) =
      S (builds (trace w))
  | Returned (nsDef, Some err) w1 =>
      ReadNamespaceAndTypes ctx nsName revision w =
      Returned (nsDef, None, Some err) w1 /\
      builds (trace w1) = builds (trace w)
  | Panicked msg w1 =>
      ReadNamespaceAndTypes ctx nsName revision w = Panicked msg w1
  end.
Proof.
  pose proof (ReadNamespace_builds ctx nsName revision w) as Hb.
  pose proof (ReadNamespace_returns_one ctx nsName revision w) as Hone.
  unfold_ReadNamespaceAndTypes.
  destruct (ReadNamespace ctx nsName revision w) as [[nsDef [e|]] w1|msg w1];
    cbn [world_of] in Hb.
  - by split.
  - destruct (Hone _ _ _ eq_refl) as [[Hsome _]|[_ [? [=]]]].
    split; [done|]. split.
    + destruct (BuildNamespaceTypeSystemForManager nsDef revision) as [ts terr].
      open_world w1. reflexivity.
    + rewrite builds_app, Hb. cbn. lia.
  - reflexivity.
Qed.

(** C10. With the ellipsis allowed and asked for,
    [CheckNamespaceAndRelation] still reads the namespace first: an
    error of [ReadNamespace], the not-found error included, is what the
    check returns, and the ellipsis is not looked at. *)
Theorem CheckNamespaceAndRelation_ellipsis_reads_first ctx namespace revision
    (w : World C) nsDef err w1 :
  ReadNamespace ctx namespace revision w = Returned (nsDef, Some err) w1 ->
  CheckNamespaceAndRelation ctx namespace Ellipsis true revision w =
  Returned (Some err) w1.
Proof.
  intros Hr. unfold_CheckNamespaceAndRelation.
  by rewrite Hr.
Qed.

(** *** The constructor and the expiration *)

(** C7. Without a configuration the cache is created with 10,000
    counters, a maximal cost of 16 MiB (2^24) and 64 buffer items; and
    when the cache cannot be created from the configuration in use, the
    constructor returns no manager and the initialization error that
    wraps the failure. *)
Theorem NewCachingNamespaceManager_defaults expiration cacheConfig :
  let config :=
    match cacheConfig with
    | None =>
        {| NumCounters := 10000; MaxCost := 16777216; BufferItems := 64 |}
    | Some config => config
    end in
  16777216 = 2 ^ 24 /\
  (forall err,
     NewCache (C := C) config = inr err ->
     NewCachingNamespaceManager expiration cacheConfig =
     (None,
      Some (wrapError "unable to initialize namespace manager: %w" err))) /\
  (forall cache,
     NewCache config = inl cache ->
     NewCachingNamespaceManager expiration cacheConfig =
     (Some {| expiration := expiration; c := cache |}, None)).
Proof.
  assert (defaultConfig =
          {| NumCounters := 10000; MaxCost := 16777216; BufferItems := 64 |})
    as Hdefault by reflexivity.
  split; [reflexivity|].
  unfold NewCachingNamespaceManager.
  split; intros x Hx; destruct cacheConfig; cbn zeta in Hx;
    rewrite ?Hdefault; by rewrite Hx.
Qed.

Lemma ReadNamespace_expiration d ctx nsName revision (w : World C) :
  ReadNamespace ctx nsName revision (with_expiration d w) =
  map_world (with_expiration d) (ReadNamespace ctx nsName revision w).
Proof.
  open_world w. destruct ctx as [[ds|]]; unfold with_expiration; exec;
    [|reflexivity].
  destruct (NamespaceCacheKey ds nsName revision) as [key|err]; exec;
    [|reflexivity].
  destruct (Cache_Get _ key) as [[v|] c1]; exec; cbn [fst snd]; [reflexivity|].
  destruct (ds_ReadNamespace ds nsName revision) as [[loaded rev]|err]; exec.
  - destruct (Cache_Set _ _ _ _) as [b c2]. cbn [fst snd errors_As].
    reflexivity.
  - cbn [errors_As]. destruct (errors_As_notfound err); reflexivity.
Qed.

(** C8. The expiration given to the constructor changes nothing that
    can be observed: two constructions that differ in it fail with the
    same error or give managers with the same cache, and every method
    does on a manager with one expiration what it does on the manager
    with another, results, cache and trace alike. *)
Theorem expiration_unobservable (d d' : Duration) :
  (forall cacheConfig,
     match NewCachingNamespaceManager (C := C) d cacheConfig,
           NewCachingNamespaceManager d' cacheConfig with
     | (Some m, None), (Some m', None) => c m = c m'
     | (None, err), (None, err') => err = err'
     | _, _ => False
     end) /\
  (forall ctx nsName revision (w : World C),
     ReadNamespace ctx nsName revision (with_expiration d w) =
     map_world (with_expiration d) (ReadNamespace ctx nsName revision w)) /\
  (forall ctx nsName revision (w : World C),
     ReadNamespaceAndTypes ctx nsName revision (with_expiration d w) =
     map_world (with_expiration d)
       (ReadNamespaceAndTypes ctx nsName revision w)) /\
  (forall ctx namespace relation allowEllipsis revision (w : World C),
     CheckNamespaceAndRelation ctx namespace relation allowEllipsis revision
       (with_expiration d w) =
     map_world (with_expiration d)
       (CheckNamespaceAndRelation ctx namespace relation allowEllipsis
          revision w)) /\
  (forall w : World C,
     Close (with_expiration d w) = map_world (with_expiration d) (Close w)).
Proof.
  split; [|split; [|split; [|split]]].
  - intros cacheConfig. unfold NewCachingNamespaceManager.
    by destruct (NewCache _).
  - intros. apply ReadNamespace_expiration.
  - intros. unfold_ReadNamespaceAndTypes.
    rewrite ReadNamespace_expiration.
    destruct (ReadNamespace ctx nsName revision w) as [[nsDef [e|]] w1|msg w1];
      cbn [map_world]; try reflexivity.
    destruct (BuildNamespaceTypeSystemForManager nsDef revision).
    reflexivity.
  - intros. unfold_CheckNamespaceAndRelation.
    rewrite ReadNamespace_expiration.
    destruct (ReadNamespace ctx namespace revision w)
      as [[config [e|]] w1|msg w1]; cbn [map_world]; try reflexivity.
    destruct (allowEllipsis && String.eqb relation Ellipsis); [reflexivity|].
    destruct config as [config|]; [|reflexivity].
    destruct (range_Relation (Relation config) relation); reflexivity.
  - intros w. reflexivity.
Qed.

(** *** Beyond the claims: the cache changes no answer *)

Lemma coherent_cache ds (w w' : World C) :
  (forall k v, holds (c (nsc w')) k v -> holds (c (nsc w)) k v) ->
  coherent ds w -> coherent ds w'.
Proof. intros Hsub Hw nsName revision k v Hk Hh. eapply Hw; eauto. Qed.

Lemma ReadNamespace_uncached ds nsName revision (w : World C) :
  coherent ds w ->
  returned (ReadNamespace (ContextWithDatastore ds) nsName revision w) =
  Some (uncached ds nsName revision).
Proof.
  intros Hw. unfold uncached.
  destruct (ReadNamespace_paths (ContextWithDatastore ds) nsName revision w)
    as [Hds|ds0 err Hds Hk|ds0 key v Hds Hk Hg|ds0 key err Hds Hk Hg Hf
       |ds0 key loaded rev Hds Hk Hg Hf];
    cbn in Hds; simplify_eq; cbn [returned]; rewrite Hk; try done.
  - apply Cache_Get_holds in Hg. pose proof (Hw _ _ _ _ Hk Hg) as Hv.
    unfold fetched in Hv.
    destruct (ds_ReadNamespace ds0 nsName revision) as [[loaded rev]|err];
      by inversion Hv.
  - by rewrite Hf.
  - by rewrite Hf.
Qed.

Lemma ReadNamespace_coherent ds nsName revision (w : World C) :
  same_key_same_content ds ->
  coherent ds w ->
  coherent ds
    (world_of (ReadNamespace (ContextWithDatastore ds) nsName revision w)).
Proof.
  intros Hsame Hw.
  destruct (ReadNamespace_paths (ContextWithDatastore ds) nsName revision w)
    as [Hds|ds0 err Hds Hk|ds0 key v Hds Hk Hg|ds0 key err Hds Hk Hg Hf
       |ds0 key loaded rev Hds Hk Hg Hf];
    cbn in Hds; simplify_eq; cbn [world_of];
    try (eapply coherent_cache; [|exact Hw]; cbn [after nsc c];
         by eauto using holds_Cache_Get).
  intros nsName' revision' k v Hk' Hh. cbn [after nsc c] in Hh.
  apply holds_Cache_Set in Hh as [Hh|[-> ->]].
  - apply holds_Cache_Get in Hh. by eapply Hw.
  - eapply (Hsame nsName revision); [done|done|].
    unfold fetched. by rewrite Hf.
Qed.

(** X1. On a manager whose cache is coherent with the datastore of the
    call, the three reading methods answer what they would answer with no
    cache at all: a hit never changes a result. *)
Theorem cache_transparent ds (w : World C) :
  coherent ds w ->
  forall nsName revision,
    returned (ReadNamespace (ContextWithDatastore ds) nsName revision w) =
    Some (uncached ds nsName revision) /\
    returned (ReadNamespaceAndTypes (ContextWithDatastore ds) nsName
                revision w) =
    Some (match uncached ds nsName revision with
          | (nsDef, Some err) => (nsDef, None, Some err)
          | (nsDef, None) =>
              (nsDef,
               (BuildNamespaceTypeSystemForManager nsDef revision).1,
               (BuildNamespaceTypeSystemForManager nsDef revision).2)
          end) /\
    forall relation allowEllipsis,
      returned (CheckNamespaceAndRelation (ContextWithDatastore ds) nsName
                  relation allowEllipsis revision w) =
      check_uncached ds nsName relation allowEllipsis revision.
Proof.
  intros Hw nsName revision.
  pose proof (ReadNamespace_uncached ds nsName revision w Hw) as Hr.
  split; [done|]. split.
  - unfold_ReadNamespaceAndTypes.
    destruct (ReadNamespace _ nsName revision w) as [[nsDef [e|]] w1|msg w1];
      cbn [returned] in Hr; try discriminate Hr; injection Hr as <-;
      [done|].
    by destruct (BuildNamespaceTypeSystemForManager nsDef revision).
  - intros relation allowEllipsis. unfold check_uncached.
    unfold_CheckNamespaceAndRelation.
    destruct (ReadNamespace _ nsName revision w) as [[config [e|]] w1|msg w1];
      cbn [returned] in Hr; try discriminate Hr; injection Hr as <-;
      [done|].
    destruct (allowEllipsis && String.eqb relation Ellipsis); [done|].
    destruct config as [config|]; [|done].
    by destruct (range_Relation (Relation config) relation).
Qed.

(** X2. Coherence is an invariant: the cache of a new manager is
    coherent with every datastore, and when one cache key stands for one
    content, every method called with that datastore keeps the cache
    coherent with it. *)
Theorem coherent_kept ds :
  (forall expiration cacheConfig manager,
     NewCachingNamespaceManager (C := C) expiration cacheConfig =
     (Some manager, None) ->
     coherent ds {| nsc := manager; trace := [] |}) /\
  (same_key_same_content ds ->
   forall w : World C,
     coherent ds w ->
     (forall nsName revision,
        coherent ds
          (world_of (ReadNamespace (ContextWithDatastore ds) nsName
                       revision w))) /\
     (forall nsName revision,
        coherent ds
          (world_of (ReadNamespaceAndTypes (ContextWithDatastore ds) nsName
                       revision w))) /\
     (forall namespace relation allowEllipsis revision,
        coherent ds
          (world_of (CheckNamespaceAndRelation (ContextWithDatastore ds)
                       namespace relation allowEllipsis revision w))) /\
     coherent ds (world_of (Close w))).
Proof.
  split.
  - intros expiration cacheConfig manager Hnew nsName revision k v _ Hh.
    unfold NewCachingNamespaceManager in Hnew.
    destruct (NewCache _) as [cache|err] eqn:Hc; inversion Hnew; subst.
    by apply (holds_NewCache _ _ _ _ Hc) in Hh.
  - intros Hsame w Hw. repeat split.
    + intros. by apply ReadNamespace_coherent.
    + intros nsName revision. eapply coherent_cache;
        [|by apply (ReadNamespace_coherent ds nsName revision w)].
      intros k v. by rewrite ReadNamespaceAndTypes_world.
    + intros namespace relation allowEllipsis revision.
      rewrite CheckNamespaceAndRelation_world.
      by apply ReadNamespace_coherent.
    + eapply coherent_cache; [|exact Hw]. intros k v Hh.
      by apply holds_Cache_Close in Hh.
Qed.

(** X3. A caller that reads any namespaces at any revisions, one call
    after the other, from a datastore for which one cache key stands for
    one content, gets from every call what the datastore has: no read
    changes the answer of a later one. *)
Theorem read_all_uncached ds requests (w : World C) :
  same_key_same_content ds ->
  coherent ds w ->
  read_all proto_Size (ContextWithDatastore ds) requests w =
  map (fun request => Some (uncached ds request.1 request.2)) requests.
Proof.
  intros Hsame. revert w.
  induction requests as [|[nsName revision] rest IH]; intros w Hw; [done|].
  cbn [read_all map fst snd].
  rewrite (ReadNamespace_uncached _ _ _ _ Hw). f_equal.
  apply IH. by apply ReadNamespace_coherent.
Qed.

(** *** Beyond the claims: traces and errors *)

Lemma count_app p t evs : count p (t ++ evs) = (count p t + count p evs)%nat.
Proof. unfold count. by rewrite List.filter_app, length_app. Qed.

Lemma trace_ok_app t evs :
  trace_ok proto_Size t -> trace_ok proto_Size evs ->
  trace_ok proto_Size (t ++ evs).
Proof.
  intros (Hs & Hi & Hf & Ha) (Hs' & Hi' & Hf' & Ha'). unfold trace_ok.
  rewrite !count_app, inserts_app, fetches_app, Forall_app.
  repeat split; try done; lia.
Qed.

Lemma ReadNamespace_trace ctx nsName revision (w : World C) :
  exists evs,
    trace (world_of (ReadNamespace ctx nsName revision w)) =
    (trace w ++ evs)%list /\
    trace_ok proto_Size evs.
Proof.
  destruct (ReadNamespace_paths ctx nsName revision w);
    cbn [world_of after trace]; eexists; (split; [reflexivity|]);
    unfold trace_ok, count, inserts, fetches; cbn;
    repeat split; try lia; repeat constructor.
  apply FilterUserDefinedMetadata_clean.
Qed.

Lemma reachable_trace_ok (w : World C) :
  reachable proto_Size NamespaceTypeSystem
    BuildNamespaceTypeSystemForManager w ->
  trace_ok proto_Size (trace w).
Proof.
  induction 1 as [expiration cacheConfig manager Hnew
                 | ctx nsName revision w _ IH
                 | ctx nsName revision w _ IH
                 | ctx namespace relation allowEllipsis revision w _ IH
                 | w _ IH].
  - cbn. unfold trace_ok, count, inserts, fetches. cbn.
    repeat split; try lia. constructor.
  - destruct (ReadNamespace_trace ctx nsName revision w) as (evs & -> & Hevs).
    by apply trace_ok_app.
  - destruct (ReadNamespace_trace ctx nsName revision w) as (evs & Ht & Hevs).
    unfold_ReadNamespaceAndTypes.
    destruct (ReadNamespace ctx nsName revision w) as [[nsDef [e|]] w1|msg w1];
      cbn [world_of ret] in Ht |- *;
      [rewrite Ht; by apply trace_ok_app| |rewrite Ht; by apply trace_ok_app].
    destruct (BuildNamespaceTypeSystemForManager nsDef revision).
    unfold emit, ret. cbn [world_of trace].
    rewrite Ht. apply trace_ok_app; [by apply trace_ok_app|].
    unfold trace_ok, count, inserts, fetches. cbn.
    repeat split; try lia. by repeat constructor.
  - rewrite CheckNamespaceAndRelation_world.
    destruct (ReadNamespace_trace ctx namespace revision w)
      as (evs & -> & Hevs).
    by apply trace_ok_app.
  - cbn. apply trace_ok_app; [done|].
    unfold trace_ok, count, inserts, fetches. cbn.
    repeat split; try lia. by repeat constructor.
Qed.

(** X5. Every span the manager starts it ends, on every path, the
    panic included: in every world a manager can reach the trace has as
    many span ends as span starts. *)
Theorem spans_ended (w : World C) :
  reachable proto_Size NamespaceTypeSystem
    BuildNamespaceTypeSystemForManager w ->
  count is_span_start (trace w) = count is_span_end (trace w).
Proof. intros Hw. by destruct (reachable_trace_ok w Hw). Qed.

(** X6. Whatever was called on a manager, it has stored no more often
    than it has fetched and fetched no more often than it has probed the
    cache; and every value it ever gave to the cache was sanitized and
    came with its serialized size as cost. *)
Theorem inserts_accounted (w : World C) :
  reachable proto_Size NamespaceTypeSystem
    BuildNamespaceTypeSystemForManager w ->
  (inserts (trace w) <= fetches (trace w))%nat /\
  (fetches (trace w) <= count is_get (trace w))%nat /\
  (forall key value cost,
     In (CallSet key value cost) (trace w) ->
     cost = proto_Size value /\ no_user_metadata value = true).
Proof.
  intros Hw. destruct (reachable_trace_ok w Hw) as (_ & Hi & Hf & Hall).
  repeat split; try done;
    rewrite List.Forall_forall in Hall; by apply (Hall _ H).
Qed.

(** X7. The flag for the ellipsis matters for the ellipsis only: for any
    other relation the check does the same with and without it; and
    allowing the ellipsis never turns a success into a failure. *)
Theorem allowEllipsis_only_for_Ellipsis ctx namespace relation revision
    (w : World C) :
  (relation <> Ellipsis ->
   CheckNamespaceAndRelation ctx namespace relation true revision w =
   CheckNamespaceAndRelation ctx namespace relation false revision w) /\
  (returned (CheckNamespaceAndRelation ctx namespace relation false
               revision w) = Some None ->
   returned (CheckNamespaceAndRelation ctx namespace relation true
               revision w) = Some None).
Proof.
  split.
  - intros Hne. unfold_CheckNamespaceAndRelation.
    apply String.eqb_neq in Hne. by rewrite Hne.
  - unfold_CheckNamespaceAndRelation.
    destruct (ReadNamespace ctx namespace revision w)
      as [[config [e|]] w1|msg w1]; [done| |done].
    cbn [andb]. by destruct (String.eqb relation Ellipsis).
Qed.

(** X8. Once the key is derived, the not-found error of the datastore
    package never reaches the caller of [ReadNamespace] or of the
    relation check, wrapped or not: [errors.As] for it fails on every
    error they return. *)
Theorem datastore_not_found_hidden ds nsName revision (w : World C) key :
  NamespaceCacheKey ds nsName revision = inl key ->
  (forall nsDef err,
     returned (ReadNamespace (ContextWithDatastore ds) nsName revision w) =
     Some (nsDef, Some err) ->
     errors_As (Some err) = false) /\
  (forall relation allowEllipsis err,
     returned (CheckNamespaceAndRelation (ContextWithDatastore ds) nsName
                 relation allowEllipsis revision w) = Some (Some err) ->
     errors_As (Some err) = false).
Proof.
  intros Hkey.
  assert (Hread : forall nsDef err,
            returned (ReadNamespace (ContextWithDatastore ds) nsName
                        revision w) = Some (nsDef, Some err) ->
            errors_As (Some err) = false).
  { intros nsDef err Hr.
    destruct (ReadNamespace_paths (ContextWithDatastore ds) nsName revision w)
      as [Hds|ds0 err0 Hds Hk|ds0 k v Hds Hk Hg|ds0 k err0 Hds Hk Hg Hf
         |ds0 k loaded rev Hds Hk Hg Hf];
      cbn in Hds; simplify_eq; cbn [returned] in Hr; simplify_eq.
    - congruence.
    - cbn [errors_As].
      match goal with
      | |- context [if errors_As_notfound ?e then _ else _] =>
          by destruct (errors_As_notfound e) eqn:Has
      end. }
  split; [done|].
  intros relation allowEllipsis err. unfold_CheckNamespaceAndRelation.
  destruct (ReadNamespace (ContextWithDatastore ds) nsName revision w)
    as [[config [e|]] w1|msg w1]; cbn [returned ret]; [|..|done].
  - intros [= <-]. by eapply Hread.
  - destruct (allowEllipsis && String.eqb relation Ellipsis); [done|].
    destruct config as [config|]; [|done].
    destruct (range_Relation (Relation config) relation); [done|].
    by intros [= <-].
Qed.

End ManagerFacts.

(** ** Overlapping calls *)

Module OverlapFacts.
Import Overlap.

Section Goroutines.

Context {C : Type} `{!Ristretto C}.
Variable proto_Size : NamespaceDefinition -> Z.

Abbreviation step := (step proto_Size).
Abbreviation run := (run proto_Size).

Lemma later_app calls cl : later calls (calls ++ [cl]).
Proof.
  intros id cl0 Hcl. exists cl0. split; [|done].
  rewrite lookup_app_l; [done|]. by eapply lookup_lt_Some.
Qed.

Lemma later_alter f id0 calls :
  (forall cl,
     calls !! id0 = Some cl ->
     call_key (f cl) = call_key cl /\ call_leader (f cl) = call_leader cl /\
     (forall r, call_result cl = Some r -> call_result (f cl) = Some r)) ->
  later calls (alter f id0 calls).
Proof.
  intros Hf id cl Hcl. destruct (decide (id = id0)) as [->|Hne].
  - exists (f cl). rewrite list_lookup_alter_eq, Hcl. cbn.
    destruct (Hf _ Hcl) as (? & ? & ?). auto.
  - exists cl. rewrite list_lookup_alter_ne by done. auto.
Qed.

(** A goroutine that leads nothing keeps what it knows when the group
    moves on. *)
Lemma goroutine_ok_later m m' calls calls' tid g :
  leads (at_pc g) = None ->
  later calls calls' ->
  goroutine_ok m calls tid g -> goroutine_ok m' calls' tid g.
Proof.
  unfold goroutine_ok. intros Hl Hlater.
  destruct (at_pc g) as [| | | | | |id|id r|[id|] result|]; try done.
  - intros (cl & Hcl & Hk). destruct (Hlater _ _ Hcl) as (cl' & ? & Hk' & _).
    exists cl'. by rewrite Hk'.
  - intros (cl & Hcl & Hk & Hr).
    destruct (Hlater _ _ Hcl) as (cl' & ? & Hk' & _ & Hr').
    exists cl'. rewrite Hk'. eauto.
  - intros (cl & r & Hcl & Hk & Hr & Hres).
    destruct (Hlater _ _ Hcl) as (cl' & ? & Hk' & _ & Hr').
    exists cl', r. rewrite Hk'. eauto.
Qed.

Lemma lookup_goroutine_move (gs : list Goroutine) tid g g' tid' g0 :
  gs !! tid = Some g ->
  <[tid := g']> gs !! tid' = Some g0 ->
  (tid' = tid /\ g0 = g') \/ (tid' <> tid /\ gs !! tid' = Some g0).
Proof.
  intros Hg Hlk. destruct (decide (tid' = tid)) as [->|Hne].
  - rewrite list_lookup_insert_eq in Hlk by (by eapply lookup_lt_Some).
    left. by inversion Hlk.
  - rewrite list_lookup_insert_ne in Hlk by done. auto.
Qed.

Lemma lookup_leader_move (gs : list Goroutine) tid g p tid' g0 id :
  gs !! tid = Some g ->
  leads p = leads (at_pc g) ->
  gs !! tid' = Some g0 -> leads (at_pc g0) = Some id ->
  exists g1, <[tid := jump g p]> gs !! tid' = Some g1 /\
             leads (at_pc g1) = Some id.
Proof.
  intros Hg Hp Hg0 Hl. destruct (decide (tid' = tid)) as [->|Hne].
  - exists (jump g p).
    rewrite list_lookup_insert_eq by (by eapply lookup_lt_Some).
    split; [done|]. cbn. rewrite Hp. congruence.
  - exists g0. by rewrite list_lookup_insert_ne.
Qed.

(** A goroutine moves without touching the group. *)
Lemma invariant_move t0 (s : System C) tid g p w' :
  invariant t0 s ->
  goroutines s !! tid = Some g ->
  leads p = leads (at_pc g) ->
  goroutine_ok (m s) (calls s) tid (jump g p) ->
  fetches (trace w') = fetches (trace (world s)) ->
  invariant t0 (move s tid g p w').
Proof.
  intros [Hgs Hfl Hpend Hf] Hg Hp Hok Hw.
  split; cbn [move m calls goroutines world].
  - intros tid' g0 Hlk.
    destruct (lookup_goroutine_move _ _ _ _ _ _ Hg Hlk) as [[-> ->]|[_ ?]];
      auto.
  - intros k id Hm. destruct (Hfl _ _ Hm) as (cl & g0 & ? & ? & ? & Hg0 & Hl).
    destruct (lookup_leader_move _ _ _ p _ _ _ Hg Hp Hg0 Hl) as (g1 & ? & ?).
    exists cl, g1. auto.
  - done.
  - by rewrite Hw.
Qed.

Lemma fetches_after (w : World C) c' evs :
  fetches (trace (after w c' evs)) = (fetches (trace w) + fetches evs)%nat.
Proof. cbn. apply fetches_app. Qed.

Lemma fetches_logged (w : World C) evs :
  fetches (trace (logged w evs)) = (fetches (trace w) + fetches evs)%nat.
Proof. apply fetches_after. Qed.

(** Two goroutines do not lead the same call. *)
Lemma leader_unique t0 (s : System C) tid tid' g g' id :
  invariant t0 s ->
  goroutines s !! tid = Some g -> goroutines s !! tid' = Some g' ->
  leads (at_pc g) = Some id -> leads (at_pc g') = Some id ->
  tid = tid'.
Proof.
  intros [Hgs _ _ _] Hg Hg' Hl Hl'.
  pose proof (Hgs _ _ Hg) as Hok. pose proof (Hgs _ _ Hg') as Hok'.
  unfold goroutine_ok in Hok, Hok'.
  destruct (at_pc g); try done; destruct (at_pc g'); try done;
    cbn in Hl, Hl'; simplify_eq;
    destruct Hok as (_ & _ & Hc), Hok' as (_ & _ & Hc');
    rewrite Hc in Hc'; by inversion Hc'.
Qed.

(** A goroutine other than the one that moves keeps what it knows, if
    the call it leads, when it leads one, is left alone. *)
Lemma goroutine_ok_other m m' calls calls' tid g :
  later calls calls' ->
  (forall k id,
     fetching (at_pc g) = Some k -> leads (at_pc g) = Some id ->
     m !! k = Some id ->
     m' !! k = Some id /\ calls' !! id = calls !! id) ->
  goroutine_ok m calls tid g -> goroutine_ok m' calls' tid g.
Proof.
  intros Hlater Hlead Hok.
  destruct (leads (at_pc g)) as [id|] eqn:Hl;
    [|by eapply goroutine_ok_later].
  unfold goroutine_ok in *.
  destruct (at_pc g); try done; cbn in Hl; simplify_eq;
    destruct Hok as (Hk & Hm & Hc);
    destruct (Hlead _ _ eq_refl eq_refl Hm) as [Hm' Hc'];
    by rewrite Hc'.
Qed.

Lemma key_of_jump g p : key_of (jump g p) = key_of g.
Proof. reflexivity. Qed.

(** Line 81, nobody in flight: the goroutine creates the call and
    becomes its leader. *)
Lemma invariant_lead t0 (s : System C) tid g k :
  invariant t0 s ->
  goroutines s !! tid = Some g ->
  at_pc g = AtDo k ->
  m s !! k = None ->
  invariant t0
    (move (with_group s (<[k := length (calls s)]> (m s))
             (calls s ++ [mkCall k tid false None]))
       tid g (AtFetch k (length (calls s))) (world s)).
Proof.
  intros Hinv Hg Hpc Hm. pose proof Hinv as [Hgs Hfl Hpend Hf].
  assert (Hmid : (calls s ++ [mkCall k tid false None])%list
                   !! length (calls s) =
                 Some (mkCall k tid false None))
    by (by apply list_lookup_middle).
  split; cbn [move with_group m calls goroutines world].
  - intros tid' g0 Hlk.
    destruct (lookup_goroutine_move _ _ _ _ _ _ Hg Hlk) as [[-> ->]|[Hne Hg0]].
    + pose proof (Hgs _ _ Hg) as Hok. unfold goroutine_ok in Hok |- *.
      rewrite Hpc in Hok. cbn [jump at_pc]. rewrite key_of_jump.
      by rewrite lookup_insert_eq.
    + eapply goroutine_ok_other; [apply later_app| |by apply Hgs].
      intros k' id' _ _ Hm'. split.
      * rewrite lookup_insert_ne; [done|]. intros <-. congruence.
      * destruct (Hfl _ _ Hm') as (cl & _ & Hcl & _).
        rewrite lookup_app_l; [done|]. by eapply lookup_lt_Some.
  - intros k' id' Hm'. destruct (decide (k' = k)) as [->|Hne].
    + rewrite lookup_insert_eq in Hm'. inversion Hm'; subst id'.
      exists (mkCall k tid false None), (jump g (AtFetch k (length (calls s)))).
      cbn [call_key call_result call_leader].
      rewrite list_lookup_insert_eq by (by eapply lookup_lt_Some).
      auto 6.
    + rewrite lookup_insert_ne in Hm' by done.
      destruct (Hfl _ _ Hm') as (cl & g0 & Hcl & ? & ? & Hg0 & Hl).
      exists cl, g0. rewrite lookup_app_l by (by eapply lookup_lt_Some).
      rewrite list_lookup_insert_ne; [auto 6|].
      intros Heq. rewrite <- Heq, Hg in Hg0. inversion Hg0; subst g0.
      by rewrite Hpc in Hl.
  - intros id cl Hcl Hr. apply lookup_app_Some in Hcl as [Hcl|[Hle Hcl]].
    + pose proof (Hpend _ _ Hcl Hr) as Hm'.
      rewrite lookup_insert_ne; [done|]. intros Heq. congruence.
    + destruct (id - length (calls s))%nat as [|n] eqn:Hn; [|done].
      inversion Hcl; subst cl. cbn [call_key].
      replace id with (length (calls s)) by lia.
      by rewrite lookup_insert_eq.
  - rewrite List.filter_app, length_app. cbn. lia.
Qed.

Lemma fetched_alter_set_fetched calls id cl :
  calls !! id = Some cl -> call_fetched cl = false ->
  length (List.filter call_fetched (alter set_fetched id calls)) =
  S (length (List.filter call_fetched calls)).
Proof.
  revert id. induction calls as [|cl0 calls IH]; intros [|id] Hcl Hf;
    try done; cbn in Hcl |- *.
  - inversion Hcl; subst cl0. by rewrite Hf.
  - destruct (call_fetched cl0); cbn; by rewrite (IH _ Hcl Hf).
Qed.

Lemma fetched_alter_set_result r calls id :
  length (List.filter call_fetched (alter (set_result r) id calls)) =
  length (List.filter call_fetched calls).
Proof.
  revert id. induction calls as [|cl0 calls IH]; intros [|id];
    try done; cbn.
  - by destruct (call_fetched cl0).
  - destruct (call_fetched cl0); cbn; by rewrite IH.
Qed.

(** Line 83: the leader asks the datastore, once. *)
Lemma invariant_fetch t0 (s : System C) tid g k id p w' :
  invariant t0 s ->
  goroutines s !! tid = Some g ->
  at_pc g = AtFetch k id ->
  (exists cacheKey loaded, p = AtSet k id cacheKey loaded) \/
  (exists r, p = AtLeave k id r) ->
  fetches (trace w') = S (fetches (trace (world s))) ->
  invariant t0
    (move (with_group s (m s) (alter set_fetched id (calls s))) tid g p w').
Proof.
  intros Hinv Hg Hpc Hp Hw. pose proof Hinv as [Hgs Hfl Hpend Hf].
  pose proof (Hgs _ _ Hg) as Hok. unfold goroutine_ok in Hok.
  rewrite Hpc in Hok. destruct Hok as (Hk & Hm & Hc).
  assert (Hc' : alter set_fetched id (calls s) !! id =
                Some (mkCall k tid true None))
    by (by rewrite list_lookup_alter_eq, Hc).
  assert (Hlp : leads p = leads (at_pc g))
    by (rewrite Hpc; by destruct Hp as [(? & ? & ->)|(? & ->)]).
  assert (Hlater : later (calls s) (alter set_fetched id (calls s)))
    by (by apply later_alter).
  split; cbn [move with_group m calls goroutines world].
  - intros tid' g0 Hlk.
    destruct (lookup_goroutine_move _ _ _ _ _ _ Hg Hlk) as [[-> ->]|[Hne Hg0]].
    + unfold goroutine_ok. cbn [jump at_pc].
      by destruct Hp as [(? & ? & ->)|(? & ->)]; rewrite key_of_jump.
    + eapply goroutine_ok_other; [done| |by apply Hgs].
      intros k' id' _ Hl' Hm'. split; [done|].
      rewrite list_lookup_alter_ne; [done|]. intros <-.
      apply Hne. eapply (leader_unique _ _ _ _ _ _ _ Hinv Hg0 Hg); [done|].
      by rewrite Hpc.
  - intros k' id' Hm'.
    destruct (Hfl _ _ Hm') as (cl & g0 & Hcl & ? & ? & Hg0 & Hl).
    destruct (lookup_leader_move _ _ _ p _ _ _ Hg Hlp Hg0 Hl) as (g1 & ? & ?).
    destruct (decide (id' = id)) as [->|Hne].
    + exists (set_fetched cl), g1.
      rewrite list_lookup_alter_eq, Hcl. auto 6.
    + exists cl, g1. rewrite list_lookup_alter_ne by done. auto 6.
  - intros id' cl' Hcl' Hr'. destruct (decide (id' = id)) as [->|Hne].
    + rewrite Hc' in Hcl'. by inversion Hcl'; subst cl'.
    + rewrite list_lookup_alter_ne in Hcl' by done. by apply Hpend.
  - rewrite Hw, Hf, (fetched_alter_set_fetched _ _ _ Hc); [lia|done].
Qed.

(** [fn] has returned: the group publishes the result and forgets the
    key. *)
Lemma invariant_leave t0 (s : System C) tid g k id r :
  invariant t0 s ->
  goroutines s !! tid = Some g ->
  at_pc g = AtLeave k id r ->
  invariant t0
    (move (with_group s (delete k (m s)) (alter (set_result r) id (calls s)))
       tid g (AfterDo id r) (world s)).
Proof.
  intros Hinv Hg Hpc. pose proof Hinv as [Hgs Hfl Hpend Hf].
  pose proof (Hgs _ _ Hg) as Hok. unfold goroutine_ok in Hok.
  rewrite Hpc in Hok. destruct Hok as (Hk & Hm & Hc).
  assert (Hc' : alter (set_result r) id (calls s) !! id =
                Some (mkCall k tid true (Some r)))
    by (by rewrite list_lookup_alter_eq, Hc).
  assert (Hlater : later (calls s) (alter (set_result r) id (calls s))).
  { apply later_alter. intros cl Hcl. rewrite Hc in Hcl.
    inversion Hcl; subst cl. by cbn. }
  split; cbn [move with_group m calls goroutines world].
  - intros tid' g0 Hlk.
    destruct (lookup_goroutine_move _ _ _ _ _ _ Hg Hlk) as [[-> ->]|[Hne Hg0]].
    + unfold goroutine_ok. cbn [jump at_pc]. rewrite key_of_jump.
      eexists. split; [exact Hc'|]. by cbn.
    + eapply goroutine_ok_other; [done| |by apply Hgs].
      intros k' id' _ Hl' Hm'.
      assert (id' <> id) as Hid.
      { intros ->. apply Hne.
        eapply (leader_unique _ _ _ _ _ _ _ Hinv Hg0 Hg); [done|].
        by rewrite Hpc. }
      split; [|by rewrite list_lookup_alter_ne].
      rewrite lookup_delete_ne; [done|]. intros <-. congruence.
  - intros k' id' Hm'. apply lookup_delete_Some in Hm' as [Hkk Hm'].
    destruct (Hfl _ _ Hm') as (cl & g0 & Hcl & Hck & ? & Hg0 & Hl).
    assert (id' <> id) as Hid.
    { intros ->. rewrite Hc in Hcl. inversion Hcl; subst cl. by cbn in Hck. }
    exists cl, g0. rewrite list_lookup_alter_ne by done.
    rewrite list_lookup_insert_ne; [auto 6|].
    intros Heq. rewrite <- Heq, Hg in Hg0. inversion Hg0; subst g0.
    rewrite Hpc in Hl. cbn in Hl. congruence.
  - intros id' cl' Hcl' Hr'. destruct (decide (id' = id)) as [->|Hne].
    + rewrite Hc' in Hcl'. by inversion Hcl'; subst cl'.
    + rewrite list_lookup_alter_ne in Hcl' by done.
      pose proof (Hpend _ _ Hcl' Hr') as Hm'.
      rewrite lookup_delete_ne; [done|]. intros Heq.
      rewrite <- Heq, Hm in Hm'. congruence.
  - by rewrite fetched_alter_set_result.
Qed.

Ltac move_on Hpc :=
  apply invariant_move;
  [done | done | by rewrite Hpc | unfold goroutine_ok; cbn [jump at_pc];
                                  rewrite ?key_of_jump
  | rewrite ?fetches_after, ?fetches_logged; cbn; lia].

Lemma invariant_step t0 (s : System C) tid :
  invariant t0 s -> invariant t0 (step tid s).
Proof.
  intros Hinv. unfold Overlap.step.
  destruct (goroutines s !! tid) as [g|] eqn:Hg; [|done].
  pose proof Hinv as [Hgs Hfl _ _].
  pose proof (Hgs _ _ Hg) as Hok. unfold goroutine_ok in Hok.
  destruct (at_pc g) as [|k|k|k id|k id cacheKey loaded|k id r|id|id r|id res|]
    eqn:Hpc.
  - destruct (NamespaceCacheKey _ _ _) as [k|err] eqn:Hk; move_on Hpc; done.
  - destruct (Cache_Get _ k).1; move_on Hpc; done.
  - destruct (m s !! k) as [id|] eqn:Hm; [|by apply invariant_lead].
    move_on Hpc.
    destruct (Hfl _ _ Hm) as (cl & _ & Hcl & <- & _).
    eauto.
  - destruct (ds_ReadNamespace _ _ _) as [[loaded rev]|err];
      [destruct (NamespaceCacheKey _ _ _)|];
      (eapply invariant_fetch; [done|done|done|eauto|]);
      rewrite ?fetches_logged; cbn; lia.
  - move_on Hpc. done.
  - by eapply invariant_leave.
  - destruct (calls s !! id) as [[ck cld cf [r|]]|] eqn:Hcl; try done.
    move_on Hpc. destruct Hok as (cl & Hcl' & Hk).
    inversion Hcl'; subst cl. eauto.
  - destruct (after_Do (nsName g) r) as [result|msg] eqn:Hres;
      move_on Hpc; [|done].
    destruct Hok as (cl & ? & ? & ?). exists cl, r. auto.
  - done.
  - done.
Qed.

Lemma invariant_start (w : World C) args :
  invariant (trace w) (start w args).
Proof.
  split; cbn [start m calls goroutines world].
  - intros tid g Hg. unfold enter in Hg. rewrite list_lookup_fmap in Hg.
    destruct (args !! tid) as [a|]; inversion Hg. by unfold goroutine_ok.
  - intros k id. by rewrite lookup_empty.
  - intros id cl. by rewrite lookup_nil.
  - cbn. lia.
Qed.

Lemma invariant_run t0 schedule (s : System C) :
  invariant t0 s -> invariant t0 (run schedule s).
Proof.
  revert s. induction schedule as [|tid schedule IH]; intros s Hinv; [done|].
  cbn. apply IH. by apply invariant_step.
Qed.

(** A goroutine alone does what [ReadNamespace] does. *)
Ltac solo_step :=
  unfold Overlap.step, solo;
  cbn [goroutines world m calls];
  match goal with
  | |- context [ [?g] !! 0%nat ] => change ([g] !! 0%nat) with (Some g)
  end;
  cbn [at_pc ds nsName revision].

Lemma solo_AtStart store name rev w m calls k :
  NamespaceCacheKey store name rev = inl k ->
  step 0 (solo store name rev w m calls AtStart) =
  solo store name rev
    (logged w [SpanStart "ReadNamespace"; CallNamespaceCacheKey name rev])
    m calls (AtGet k).
Proof. intros Hk. solo_step. rewrite Hk. reflexivity. Qed.

Lemma solo_AtStart_error store name rev w m calls err :
  NamespaceCacheKey store name rev = inr err ->
  step 0 (solo store name rev w m calls AtStart) =
  solo store name rev
    (logged (logged w [SpanStart "ReadNamespace";
                       CallNamespaceCacheKey name rev]) [SpanEnd])
    m calls (Finished None (None, Some err)).
Proof. intros Hk. solo_step. rewrite Hk. reflexivity. Qed.

Lemma solo_AtGet store name rev w m calls k :
  let w1 := logged w [CallGet k] in
  step 0 (solo store name rev w m calls (AtGet k)) =
  match (Cache_Get (c (nsc w1)) k).1 with
  | Some found =>
      solo store name rev (after w1 (Cache_Get (c (nsc w1)) k).2 [SpanEnd])
        m calls (Finished None (Some found, None))
  | None =>
      solo store name rev (after w1 (Cache_Get (c (nsc w1)) k).2 [])
        m calls (AtDo k)
  end.
Proof. intros w1. solo_step. fold w1. by destruct (Cache_Get _ _).1. Qed.

Lemma solo_AtDo store name rev w calls k :
  step 0 (solo store name rev w ∅ calls (AtDo k)) =
  solo store name rev w {[k := length calls]}
    (calls ++ [mkCall k 0 false None]) (AtFetch k (length calls)).
Proof. solo_step. rewrite lookup_empty. reflexivity. Qed.

Lemma solo_AtFetch_error store name rev w m calls k id err :
  ds_ReadNamespace store name rev = inr err ->
  step 0 (solo store name rev w m calls (AtFetch k id)) =
  solo store name rev
    (logged w [SpanAddEvent "Read namespace from delegate (datastore)";
               CallReadNamespace name rev])
    m (alter set_fetched id calls) (AtLeave k id (None, Some err)).
Proof. intros Hf. solo_step. rewrite Hf. reflexivity. Qed.

Lemma solo_AtFetch store name rev w m calls k id loaded rev' cacheKey :
  ds_ReadNamespace store name rev = inl (loaded, rev') ->
  NamespaceCacheKey store name rev = inl cacheKey ->
  step 0 (solo store name rev w m calls (AtFetch k id)) =
  solo store name rev
    (logged
       (logged w [SpanAddEvent "Read namespace from delegate (datastore)";
                  CallReadNamespace name rev])
       [CallNamespaceCacheKey name rev])
    m (alter set_fetched id calls)
    (AtSet k id cacheKey (FilterUserDefinedMetadata loaded)).
Proof. intros Hf Hk. solo_step. rewrite Hf, Hk. reflexivity. Qed.

Lemma solo_AtSet store name rev w m calls k id cacheKey loaded :
  let w1 := logged w [CallSet cacheKey loaded (proto_Size loaded)] in
  step 0 (solo store name rev w m calls (AtSet k id cacheKey loaded)) =
  solo store name rev
    (after w1 (Cache_Set (c (nsc w1)) cacheKey loaded (proto_Size loaded)).2
       [SpanAddEvent "Saved to cache"])
    m calls (AtLeave k id (Some loaded, None)).
Proof. intros w1. solo_step. reflexivity. Qed.

Lemma solo_AtLeave store name rev w m calls k id r :
  step 0 (solo store name rev w m calls (AtLeave k id r)) =
  solo store name rev w (delete k m) (alter (set_result r) id calls)
    (AfterDo id r).
Proof. solo_step. reflexivity. Qed.

Lemma solo_AfterDo store name rev w m calls id r result :
  after_Do name r = inl result ->
  step 0 (solo store name rev w m calls (AfterDo id r)) =
  solo store name rev (logged w [SpanEnd]) m calls (Finished (Some id) result).
Proof. intros Hr. solo_step. rewrite Hr. reflexivity. Qed.

Lemma solo_Finished store name rev w m calls id result :
  step 0 (solo store name rev w m calls (Finished id result)) =
  solo store name rev w m calls (Finished id result).
Proof. solo_step. reflexivity. Qed.

(** X10. A call that overlaps with no other goes through the group as if
    the group were not there: run alone for eight steps it has returned,
    with the result, the cache and the trace of [ReadNamespace] executed
    in one piece, which with a datastore in its context never panics. *)
Lemma solo_call store name rev (w : World C) :
  let s := run (replicate 8 0%nat) (start w [(store, name, rev)]) in
  match ReadNamespace proto_Size (ContextWithDatastore store) name rev w with
  | Returned result w' =>
      world s = w' /\
      exists id, at_pc <$> goroutines s = [Finished id result]
  | Panicked _ _ => False
  end.
Proof.
  cbn [replicate Overlap.run foldl].
  change (start w [(store, name, rev)])
    with (solo store name rev w ∅ [] AtStart).
  destruct (NamespaceCacheKey store name rev) as [key|err] eqn:Hk.
  - rewrite (solo_AtStart _ _ _ _ _ _ _ Hk), solo_AtGet.
    destruct (Cache_Get (c (nsc w)) key).1 as [v|] eqn:Hg.
    + rewrite (ReadNamespace_hit _ _ _ _ _ _ _ Hk Hg).
      open_world w. cbn [logged after nsc c] in *. rewrite Hg.
      rewrite !solo_Finished. cbn [solo world goroutines].
      split; [unfold after; cbn; by tidy|]. by eexists.
    + destruct (ds_ReadNamespace store name rev) as [[loaded rev']|err] eqn:Hf.
      * rewrite (ReadNamespace_miss _ _ _ _ _ _ _ _ Hk Hg Hf).
        open_world w. cbn [logged after nsc c] in *. rewrite Hg.
        rewrite solo_AtDo, (solo_AtFetch _ _ _ _ _ _ _ _ _ _ _ Hf Hk).
        rewrite solo_AtSet, solo_AtLeave.
        rewrite (solo_AfterDo _ _ _ _ _ _ _ _
                   (Some (FilterUserDefinedMetadata loaded), None))
          by reflexivity.
        rewrite solo_Finished.
        cbn [solo world goroutines].
        split; [unfold logged, after; cbn; by tidy|]. by eexists.
      * rewrite (ReadNamespace_fetch_error _ _ _ _ _ _ _ Hk Hg Hf).
        open_world w. cbn [logged after nsc c] in *. rewrite Hg.
        rewrite solo_AtDo, (solo_AtFetch_error _ _ _ _ _ _ _ _ _ Hf).
        rewrite solo_AtLeave.
        rewrite (solo_AfterDo _ _ _ _ _ _ _ _
                   (None, Some (if errors_As_notfound err
                                then NewNamespaceNotFoundErr name else err)));
          [|unfold after_Do; cbn [errors_As];
            by destruct (errors_As_notfound err)].
        rewrite !solo_Finished. cbn [solo world goroutines].
        split; [unfold logged, after; cbn; by tidy|]. by eexists.
  - rewrite (ReadNamespace_key_error _ _ _ _ _ _ Hk).
    rewrite (solo_AtStart_error _ _ _ _ _ _ _ Hk), !solo_Finished.
    cbn [solo world goroutines]. open_world w.
    split; [unfold logged, after; cbn; by tidy|]. by eexists.
Qed.


(** *** Overlapping calls return sanitized definitions *)

Lemma sanitized_after (w : World C) c' evs :
  (forall k v, holds c' k v -> no_user_metadata v = true) ->
  sanitized_cache (after w c' evs).
Proof. intros Hc k v. apply Hc. Qed.

Lemma sanitized_logged (w : World C) evs :
  sanitized_cache w -> sanitized_cache (logged w evs).
Proof. intros Hw. by apply sanitized_after. Qed.

Lemma clean_move (s : System C) tid g p w' :
  clean_system s ->
  goroutines s !! tid = Some g ->
  clean_pc p ->
  sanitized_cache w' ->
  clean_system (move s tid g p w').
Proof.
  intros [Hw Hc Hg] Hlk Hp Hw'. split; cbn [move world calls goroutines].
  - done.
  - done.
  - intros tid' g0 Hlk'.
    destruct (lookup_goroutine_move _ _ _ _ _ _ Hlk Hlk') as [[_ ->]|[_ ?]];
      eauto.
Qed.

Lemma clean_with_group (s : System C) m' calls' :
  clean_system s ->
  (forall id cl r,
     calls' !! id = Some cl -> call_result cl = Some r -> clean_result r) ->
  clean_system (with_group s m' calls').
Proof. intros [Hw Hc Hg] Hc'. by split. Qed.

Lemma after_Do_clean name r result :
  clean_result r -> after_Do name r = inl result -> clean_result result.
Proof.
  destruct r as [loadedRaw err]. unfold after_Do, clean_result. cbn.
  intros Hr. destruct (errors_As err); [by intros [= <-]|].
  destruct err; [by intros [= <-]|].
  destruct loadedRaw; intros [= <-]; cbn; auto.
Qed.

Lemma clean_step (s : System C) tid :
  clean_system s -> clean_system (step tid s).
Proof.
  intros Hs. pose proof Hs as [Hw Hc Hg]. unfold Overlap.step.
  destruct (goroutines s !! tid) as [g|] eqn:Hlk; [|done].
  pose proof (Hg _ _ Hlk) as Hpc.
  destruct (at_pc g) as [|k|k|k id|k id cacheKey loaded|k id r|id|id r|id res|]
    eqn:Heq; cbn [clean_pc] in Hpc.
  - destruct (NamespaceCacheKey _ _ _);
      apply clean_move; try done; by repeat apply sanitized_logged.
  - pose proof (Cache_Get_holds (c (nsc (logged (world s) [CallGet k]))) k)
      as Hget.
    destruct (Cache_Get _ k).1 as [found|];
      (apply clean_move; [done|done| |]);
      try (apply sanitized_after; intros k' v' Hh;
           apply holds_Cache_Get in Hh; by eapply Hw).
    + intros nsDef [= <-]. eapply Hw. by apply Hget.
    + done.
  - destruct (m s !! k); [by apply clean_move|].
    apply clean_move; [|done|done|done].
    apply clean_with_group; [done|].
    intros id cl r Hcl Hr. apply lookup_app_Some in Hcl as [Hcl|[_ Hcl]];
      [by eapply Hc|].
    destruct (id - length (calls s))%nat; [|done].
    inversion Hcl; subst cl. done.
  - assert (clean_system
              (with_group s (m s) (alter set_fetched id (calls s)))) as Hs'.
    { apply clean_with_group; [done|]. intros id' cl r Hcl Hr.
      destruct (decide (id' = id)) as [->|Hne].
      - rewrite list_lookup_alter_eq in Hcl.
        destruct (calls s !! id) as [cl0|] eqn:Hcl0; [|done].
        inversion Hcl; subst cl. by eapply Hc.
      - rewrite list_lookup_alter_ne in Hcl by done. by eapply Hc. }
    destruct (ds_ReadNamespace _ _ _) as [[loaded rev]|err];
      [destruct (NamespaceCacheKey _ _ _)|];
      apply clean_move; try done; try (by repeat apply sanitized_logged).
    apply FilterUserDefinedMetadata_clean.
  - apply clean_move; [done|done| |].
    + by intros nsDef [= <-].
    + apply sanitized_after. intros k' v' Hh.
      apply holds_Cache_Set in Hh as [Hh|[_ ->]]; [by eapply Hw|done].
  - apply clean_move; [|done|done|done].
    apply clean_with_group; [done|]. intros id' cl r' Hcl Hr.
    destruct (decide (id' = id)) as [->|Hne].
    + rewrite list_lookup_alter_eq in Hcl.
      destruct (calls s !! id) as [cl0|] eqn:Hcl0; [|done].
      inversion Hcl; subst cl. cbn in Hr. by inversion Hr; subst r'.
    + rewrite list_lookup_alter_ne in Hcl by done. by eapply Hc.
  - destruct (calls s !! id) as [[ck cld cf [r|]]|] eqn:Hcl; try done.
    apply clean_move; try done. by eapply (Hc _ _ _ Hcl).
  - destruct (after_Do (nsName g) r) as [result|msg] eqn:Hres;
      apply clean_move; try done; try (by apply sanitized_logged).
    by eapply after_Do_clean.
  - done.
  - done.
Qed.

(** X9. Calls that start on a manager whose cache is sanitized, as every
    cache a manager can have is, return sanitized definitions, whatever
    the scheduler does: from the cache, as leader of a fetch, or as
    follower sharing a leader's result. *)
Lemma overlapping_calls_sanitized (w : World C) args schedule tid g id
    nsDef err :
  sanitized_cache w ->
  goroutines (run schedule (start w args)) !! tid = Some g ->
  at_pc g = Finished id (Some nsDef, err) ->
  no_user_metadata nsDef = true.
Proof.
  intros Hw Hg Hpc.
  assert (clean_system (run schedule (start w args))) as [_ _ Hgs].
  { assert (clean_system (start w args)) as Hstart.
    { split; cbn [start world calls goroutines]; [done|by intros []|].
      intros tid' g' Hlk. unfold enter in Hlk.
      rewrite list_lookup_fmap in Hlk.
      destruct (args !! tid'); by inversion Hlk. }
    revert Hstart. generalize (start w args). clear.
    induction schedule as [|t schedule IH]; intros s Hs; [done|].
    cbn. by apply IH, clean_step. }
  pose proof (Hgs _ _ Hg) as Hclean. rewrite Hpc in Hclean.
  by apply Hclean.
Qed.

(** Only the step of a leader at line 83 asks the datastore to read. *)
Lemma step_fetches (s : System C) tid :
  fetches (trace (world (step tid s))) = fetches (trace (world s)) \/
  exists g k id,
    goroutines s !! tid = Some g /\ at_pc g = AtFetch k id /\
    fetches (trace (world (step tid s))) = S (fetches (trace (world s))).
Proof.
  unfold Overlap.step.
  destruct (goroutines s !! tid) as [g|] eqn:Hg; [|by left].
  destruct (at_pc g) as [|k|k|k id|k id cacheKey loaded|k id r|id|id r|id res|]
    eqn:Hpc;
    try (left; repeat case_match; cbn [move with_group world];
         rewrite ?fetches_after, ?fetches_logged; cbn; lia).
  right. exists g, k, id. split; [done|]. split; [done|].
  repeat case_match; cbn [move with_group world];
    rewrite ?fetches_after, ?fetches_logged; cbn; lia.
Qed.

(** *** No goroutine crashes *)

Lemma sound_move (s : System C) tid g p w' :
  sound_system s ->
  goroutines s !! tid = Some g ->
  sound_pc p ->
  sound_system (move s tid g p w').
Proof.
  intros [Hc Hg] Hlk Hp. split; cbn [move calls goroutines]; [done|].
  intros tid' g0 Hlk'.
  destruct (lookup_goroutine_move _ _ _ _ _ _ Hlk Hlk') as [[_ ->]|[_ ?]];
    eauto.
Qed.

Lemma sound_with_group (s : System C) m' calls' :
  sound_system s ->
  (forall id cl r,
     calls' !! id = Some cl -> call_result cl = Some r -> sound_result r) ->
  sound_system (with_group s m' calls').
Proof. intros [Hc Hg] Hc'. by split. Qed.

Lemma after_Do_sound name r :
  sound_result r -> exists result, after_Do name r = inl result.
Proof.
  destruct r as [[nsDef|] [e|]]; unfold after_Do, sound_result; cbn;
    intros Hr; try (destruct (errors_As_notfound e)); by eauto.
Qed.

Lemma sound_step (s : System C) tid :
  sound_system s -> sound_system (step tid s).
Proof.
  intros Hs. pose proof Hs as [Hc Hg]. unfold Overlap.step.
  destruct (goroutines s !! tid) as [g|] eqn:Hlk; [|done].
  pose proof (Hg _ _ Hlk) as Hpc.
  destruct (at_pc g) as [|k|k|k id|k id cacheKey loaded|k id r|id|id r|id res|]
    eqn:Heq; cbn [sound_pc] in Hpc.
  - destruct (NamespaceCacheKey _ _ _); by apply sound_move.
  - destruct (Cache_Get _ k).1; by apply sound_move.
  - destruct (m s !! k); [by apply sound_move|].
    apply sound_move; [|done|done].
    apply sound_with_group; [done|].
    intros id cl r Hcl Hr. apply lookup_app_Some in Hcl as [Hcl|[_ Hcl]];
      [by eapply Hc|].
    destruct (id - length (calls s))%nat; [|done].
    by inversion Hcl; subst cl.
  - assert (sound_system
              (with_group s (m s) (alter set_fetched id (calls s)))) as Hs'.
    { apply sound_with_group; [done|]. intros id' cl r Hcl Hr.
      destruct (decide (id' = id)) as [->|Hne].
      - rewrite list_lookup_alter_eq in Hcl.
        destruct (calls s !! id) as [cl0|] eqn:Hcl0; [|done].
        inversion Hcl; subst cl. by eapply Hc.
      - rewrite list_lookup_alter_ne in Hcl by done. by eapply Hc. }
    destruct (ds_ReadNamespace _ _ _) as [[loaded rev]|err];
      [destruct (NamespaceCacheKey _ _ _)|];
      by apply sound_move.
  - by apply sound_move.
  - apply sound_move; [|done|done].
    apply sound_with_group; [done|]. intros id' cl r' Hcl Hr.
    destruct (decide (id' = id)) as [->|Hne].
    + rewrite list_lookup_alter_eq in Hcl.
      destruct (calls s !! id) as [cl0|] eqn:Hcl0; [|done].
      inversion Hcl; subst cl. cbn in Hr. by inversion Hr; subst r'.
    + rewrite list_lookup_alter_ne in Hcl by done. by eapply Hc.
  - destruct (calls s !! id) as [[ck cld cf [r|]]|] eqn:Hcl; try done.
    apply sound_move; try done. by eapply (Hc _ _ _ Hcl).
  - destruct (after_Do_sound (nsName g) r Hpc) as [result ->].
    by apply sound_move.
  - done.
  - done.
Qed.

Lemma sound_run schedule (s : System C) :
  sound_system s -> sound_system (run schedule s).
Proof.
  revert s. induction schedule as [|tid schedule IH]; intros s Hs; [done|].
  cbn. by apply IH, sound_step.
Qed.

Lemma sound_start (w : World C) args : sound_system (start w args).
Proof.
  split; cbn [start calls goroutines]; [by intros []|].
  intros tid g Hlk. unfold enter in Hlk. rewrite list_lookup_fmap in Hlk.
  destruct (args !! tid); by inversion Hlk.
Qed.

(** *** Beyond the claims: every call returns *)

Lemma step_ready (s : System C) tid g :
  goroutines s !! tid = Some g ->
  ready (calls s) (at_pc g) = true ->
  exists p,
    goroutines (step tid s) = <[tid := jump g p]> (goroutines s) /\
    (rank p < rank (at_pc g))%nat.
Proof.
  intros Hg Hready. unfold Overlap.step. rewrite Hg.
  destruct (at_pc g) as [|k|k|k id|k id cacheKey loaded|k id r|id|id r|id res|]
    eqn:Hpc; cbn [ready] in Hready; try done;
    repeat case_match; try done;
    cbn [move with_group goroutines]; eexists; (split; [reflexivity|]);
    cbn; lia.
Qed.

Lemma step_idle (s : System C) tid :
  (forall g, goroutines s !! tid = Some g ->
             ready (calls s) (at_pc g) = false) ->
  step tid s = s.
Proof.
  intros Hidle. unfold Overlap.step.
  destruct (goroutines s !! tid) as [g|] eqn:Hg; [|done].
  specialize (Hidle g eq_refl).
  destruct (at_pc g); cbn [ready] in Hidle; try done.
  by repeat case_match.
Qed.

(** A call that has its result keeps one. *)
Lemma step_resolved (s : System C) tid id cl r :
  calls s !! id = Some cl -> call_result cl = Some r ->
  exists cl' r',
    calls (step tid s) !! id = Some cl' /\ call_result cl' = Some r'.
Proof.
  intros Hcl Hr. unfold Overlap.step.
  destruct (goroutines s !! tid) as [g|]; [|by eauto].
  destruct (at_pc g) as [|k|k|k id0|k id0 cacheKey loaded|k id0 r0|id0|id0 r0
                        |id0 res|];
    repeat case_match; cbn [move with_group calls]; try (by eauto).
  - rewrite lookup_app_l by (by eapply lookup_lt_Some). eauto.
  - destruct (decide (id = id0)) as [->|Hne].
    + rewrite list_lookup_alter_eq, Hcl. cbn. eauto.
    + rewrite list_lookup_alter_ne by done. eauto.
  - destruct (decide (id = id0)) as [->|Hne].
    + rewrite list_lookup_alter_eq, Hcl. cbn. eauto.
    + rewrite list_lookup_alter_ne by done. eauto.
  - destruct (decide (id = id0)) as [->|Hne].
    + rewrite list_lookup_alter_eq, Hcl. cbn. eauto.
    + rewrite list_lookup_alter_ne by done. eauto.
  - destruct (decide (id = id0)) as [->|Hne].
    + rewrite list_lookup_alter_eq, Hcl. cbn. eauto.
    + rewrite list_lookup_alter_ne by done. eauto.
Qed.

Lemma step_goroutines (s : System C) tid :
  goroutines (step tid s) = goroutines s \/
  exists g p,
    goroutines s !! tid = Some g /\
    ready (calls s) (at_pc g) = true /\
    goroutines (step tid s) = <[tid := jump g p]> (goroutines s) /\
    (rank p < rank (at_pc g))%nat.
Proof.
  destruct (goroutines s !! tid) as [g|] eqn:Hg.
  - destruct (ready (calls s) (at_pc g)) eqn:Hready.
    + right. destruct (step_ready s tid g Hg Hready) as (p & ? & ?).
      by exists g, p.
    + left. rewrite step_idle; [done|]. intros g' Hg'. congruence.
  - left. rewrite step_idle; [done|]. intros g' Hg'. congruence.
Qed.

(** A goroutine that is ready stays so while others step. *)
Lemma ready_kept (s : System C) tid tid' g :
  tid' <> tid ->
  goroutines s !! tid' = Some g ->
  ready (calls s) (at_pc g) = true ->
  goroutines (step tid s) !! tid' = Some g /\
  ready (calls (step tid s)) (at_pc g) = true.
Proof.
  intros Hne Hg Hready. split.
  - destruct (step_goroutines s tid) as [->|(g0 & p & _ & _ & -> & _)];
      [done|]. by rewrite list_lookup_insert_ne.
  - destruct (at_pc g) as [| | | | | |id| | |]; try done.
    cbn [ready] in Hready |- *.
    destruct (calls s !! id) as [[ck cld cf [r|]]|] eqn:Hcl; try done.
    destruct (step_resolved s tid id _ r Hcl eq_refl) as (cl' & r' & -> & Hr).
    destruct cl'. cbn in Hr. by rewrite Hr.
Qed.

Lemma total_insert (gs : list Goroutine) tid g p :
  gs !! tid = Some g ->
  (total (<[tid := jump g p]> gs) + rank (at_pc g) = total gs + rank p)%nat.
Proof.
  revert tid. induction gs as [|g0 gs IH]; intros [|tid] Hg; try done.
  - inversion Hg; subst g0. unfold total. cbn -[rank]. lia.
  - cbn in Hg. specialize (IH _ Hg). unfold total in *. cbn -[rank] in *.
    rewrite <- !Nat.add_assoc. f_equal. exact IH.
Qed.

Lemma step_total (s : System C) tid :
  (total (goroutines (step tid s)) <= total (goroutines s))%nat.
Proof.
  destruct (step_goroutines s tid) as [->|(g & p & Hg & _ & -> & Hlt)];
    [done|].
  pose proof (total_insert _ _ _ p Hg). lia.
Qed.

Lemma run_total schedule (s : System C) :
  (total (goroutines (run schedule s)) <= total (goroutines s))%nat.
Proof.
  revert s. induction schedule as [|tid schedule IH]; intros s; [done|].
  cbn. etrans; [apply IH|apply step_total].
Qed.

(** A schedule that gives a ready goroutine a step brings the system
    forward. *)
Lemma run_total_lt schedule (s : System C) tid g :
  tid ∈ schedule ->
  goroutines s !! tid = Some g ->
  ready (calls s) (at_pc g) = true ->
  (total (goroutines (run schedule s)) < total (goroutines s))%nat.
Proof.
  revert s. induction schedule as [|t schedule IH]; intros s Hin Hg Hready.
  - by apply elem_of_nil in Hin.
  - cbn. destruct (decide (t = tid)) as [->|Hne].
    + eapply Nat.le_lt_trans; [apply run_total|].
      destruct (step_ready s tid g Hg Hready) as (p & -> & Hlt).
      pose proof (total_insert _ _ _ p Hg). lia.
    + apply elem_of_cons in Hin as [->|Hin]; [done|].
      destruct (ready_kept s t tid g) as [Hg' Hready']; [done..|].
      eapply Nat.lt_le_trans; [by eapply IH|apply step_total].
Qed.

(** No deadlock: while a call has not returned, some goroutine is
    ready. *)
Lemma some_ready t0 (s : System C) tid g :
  invariant t0 s ->
  goroutines s !! tid = Some g ->
  running (at_pc g) = true ->
  exists tid' g',
    goroutines s !! tid' = Some g' /\ ready (calls s) (at_pc g') = true.
Proof.
  intros [Hgs Hfl Hpend _] Hg Hrun.
  destruct (ready (calls s) (at_pc g)) eqn:Hready; [by eauto|].
  pose proof (Hgs _ _ Hg) as Hok. unfold goroutine_ok in Hok.
  destruct (at_pc g) as [| | | | | |id| | |]; try done.
  cbn [ready] in Hready. destruct Hok as (cl & Hcl & _).
  rewrite Hcl in Hready.
  destruct cl as [ck cld cf [r|]]; [done|].
  pose proof (Hpend _ _ Hcl eq_refl) as Hm.
  destruct (Hfl _ _ Hm) as (cl0 & g' & _ & _ & _ & Hg' & Hl).
  exists (call_leader cl0), g'. split; [done|].
  by destruct (at_pc g').
Qed.

Lemma total_zero (gs : list Goroutine) :
  total gs = 0%nat <-> Forall (fun g => running (at_pc g) = false) gs.
Proof.
  unfold total. induction gs as [|g gs IH]; cbn.
  - split; [constructor|done].
  - rewrite Forall_cons, <- IH. destruct (at_pc g); cbn; split;
      try lia; try (by intros [? ?]); try (intros ?; split; [done|lia]).
Qed.

Lemma step_length (s : System C) tid :
  length (goroutines (step tid s)) = length (goroutines s).
Proof.
  destruct (step_goroutines s tid) as [->|(g & p & _ & _ & -> & _)];
    [done|]. apply length_insert.
Qed.

Lemma run_length schedule (s : System C) :
  length (goroutines (run schedule s)) = length (goroutines s).
Proof.
  revert s. induction schedule as [|tid schedule IH]; intros s; [done|].
  change (run (tid :: schedule) s) with (run schedule (step tid s)).
  by rewrite IH, step_length.
Qed.

Lemma run_app schedule schedule' (s : System C) :
  run (schedule ++ schedule') s = run schedule' (run schedule s).
Proof. unfold Overlap.run. apply foldl_app. Qed.

Lemma rounds_total n (w : World C) args :
  (total (goroutines (run (rounds n (length args)) (start w args))) <=
   8 * length args - n)%nat.
Proof.
  induction n as [|n IH].
  - cbn [rounds Overlap.run foldl start goroutines]. unfold total, enter.
    induction args as [|a args IHargs]; cbn in *; lia.
  - cbn [rounds]. rewrite run_app.
    set (s := run (rounds n (length args)) (start w args)) in *.
    assert (Hinv : invariant (trace w) s)
      by (apply invariant_run, invariant_start).
    assert (Hlen : length (goroutines s) = length args).
    { unfold s. rewrite run_length. cbn. unfold enter.
      by rewrite length_map. }
    destruct (decide (total (goroutines s) = 0%nat)) as [Hz|Hnz].
    + pose proof (run_total (seq 0 (length args)) s). lia.
    + assert (exists tid g, goroutines s !! tid = Some g /\
                            running (at_pc g) = true) as (tid & g & Hg & Hr).
      { destruct (decide (Forall (fun g => running (at_pc g) = false)
                            (goroutines s))) as [Hall|Hsome].
        - by apply total_zero in Hall.
        - apply not_Forall_Exists in Hsome; [|solve_decision].
          apply Exists_exists in Hsome as (g & Hin & Hrun).
          apply list_elem_of_lookup in Hin as [tid Hg].
          exists tid, g. split; [done|].
          cbn beta in Hrun. by apply not_false_is_true in Hrun. }
      destruct (some_ready _ _ _ _ Hinv Hg Hr) as (tid' & g' & Hg' & Hready).
      assert (tid' ∈ seq 0 (length args)) as Hin.
      { apply elem_of_seq. apply lookup_lt_Some in Hg'. lia. }
      pose proof (run_total_lt _ s tid' g' Hin Hg' Hready). lia.
Qed.

Lemma step_args (s : System C) tid :
  (fun g => (ds g, nsName g, revision g)) <$> goroutines (step tid s) =
  (fun g => (ds g, nsName g, revision g)) <$> goroutines s.
Proof.
  destruct (step_goroutines s tid) as [->|(g & p & Hg & _ & -> & _)];
    [done|].
  rewrite list_fmap_insert. apply list_insert_id.
  by rewrite list_lookup_fmap, Hg.
Qed.

Lemma run_args schedule (s : System C) :
  (fun g => (ds g, nsName g, revision g)) <$> goroutines (run schedule s) =
  (fun g => (ds g, nsName g, revision g)) <$> goroutines s.
Proof.
  revert s. induction schedule as [|tid schedule IH]; intros s; [done|].
  change (run (tid :: schedule) s) with (run schedule (step tid s)).
  by rewrite IH, step_args.
Qed.

(** *** What overlapping calls share *)

















(** X11. Overlapping calls never deadlock: whatever the scheduler has
    done, as long as a call has not returned some goroutine is ready (a
    goroutine waits only for a leader, and a leader waits for nobody),
    and the step of a ready goroutine brings it nearer to its return. *)
Theorem no_deadlock (w : World C) args schedule :
  let s := run schedule (start w args) in
  (forall tid g,
     goroutines s !! tid = Some g -> running (at_pc g) = true ->
     exists tid' g',
       goroutines s !! tid' = Some g' /\
       ready (calls s) (at_pc g') = true) /\
  (forall tid g,
     goroutines s !! tid = Some g -> ready (calls s) (at_pc g) = true ->
     exists g',
       goroutines (step tid s) !! tid = Some g' /\
       (rank (at_pc g') < rank (at_pc g))%nat).
Proof.
  intros s. split.
  - intros tid g Hg Hrun. eapply some_ready; [|done..].
    apply invariant_run, invariant_start.
  - intros tid g Hg Hready.
    destruct (step_ready s tid g Hg Hready) as (p & -> & Hlt).
    exists (jump g p). split; [|done].
    apply list_lookup_insert_eq. by eapply lookup_lt_Some.
Qed.

(** X12. Under a fair scheduler every call returns: after eight rounds
    per call, in which every goroutine gets one step, each of the calls
    that started has returned, and none has panicked. *)
Theorem all_calls_return (w : World C) args :
  let s := run (rounds (8 * length args) (length args)) (start w args) in
  (fun g => (ds g, nsName g, revision g)) <$> goroutines s = args /\
  Forall (fun g => exists id result, at_pc g = Finished id result)
    (goroutines s).
Proof.
  intros s. split.
  - unfold s. rewrite run_args. cbn [start goroutines]. unfold enter.
    rewrite <- list_fmap_compose. clear.
    induction args as [|[[? ?] ?] args IH]; [done|]. cbn. by rewrite IH.
  - pose proof (rounds_total (8 * length args) w args) as Htotal.
    fold s in Htotal.
    assert (total (goroutines s) = 0%nat) as Hzero by lia.
    apply total_zero in Hzero.
    assert (sound_system s) as [_ Hsound] by apply sound_run, sound_start.
    apply Forall_lookup. intros tid g Hg.
    rewrite Forall_lookup in Hzero. specialize (Hzero _ _ Hg).
    specialize (Hsound _ _ Hg).
    destruct (at_pc g); try done. by eauto.
Qed.

(** *** Beyond the claims: overlapping calls and the datastore *)

Lemma after_Do_fetched store name rev k :
  NamespaceCacheKey store name rev = inl k ->
  after_Do name (fetched store name rev) = inl (uncached store name rev).
Proof.
  intros Hk. unfold after_Do, fetched, uncached. rewrite Hk.
  destruct (ds_ReadNamespace store name rev) as [[loaded rev']|err]; [done|].
  cbn. by destruct (errors_As_notfound err).
Qed.

Lemma agrees_move store (s : System C) tid g p w' :
  agrees store s ->
  goroutines s !! tid = Some g ->
  agrees_pc store (jump g p) ->
  coherent store w' ->
  agrees store (move s tid g p w').
Proof.
  intros [Hw Hc Hg] Hlk Hp Hw'. split; cbn [move world calls goroutines].
  - done.
  - done.
  - intros tid' g0 Hlk'.
    destruct (lookup_goroutine_move _ _ _ _ _ _ Hlk Hlk') as [[_ ->]|[_ ?]];
      [|by eauto].
    split; [|done]. cbn. by apply (Hg _ _ Hlk).
Qed.

Lemma agrees_with_group store (s : System C) m' calls' :
  agrees store s ->
  (forall id cl r,
     calls' !! id = Some cl -> call_result cl = Some r ->
     exists name rev,
       NamespaceCacheKey store name rev = inl (call_key cl) /\
       r = fetched store name rev) ->
  agrees store (with_group s m' calls').
Proof. intros [Hw Hc Hg] Hc'. by split. Qed.

Lemma coherent_logged store (w : World C) evs :
  coherent store w -> coherent store (logged w evs).
Proof. intros Hw. eapply coherent_cache; [|exact Hw]. done. Qed.

Lemma uncached_fetched store name rev k v :
  NamespaceCacheKey store name rev = inl k ->
  fetched store name rev = (Some v, None) ->
  uncached store name rev = (Some v, None).
Proof.
  unfold fetched, uncached. intros -> Hf.
  destruct (ds_ReadNamespace store name rev) as [[loaded rev']|err];
    by inversion Hf.
Qed.

Lemma agrees_step t0 store (s : System C) tid :
  key_faithful store ->
  invariant t0 s ->
  agrees store s -> agrees store (step tid s).
Proof.
  intros Hkf [Hgs _ _ _] Ha. pose proof Ha as [Hw Hc Hg].
  unfold Overlap.step.
  destruct (goroutines s !! tid) as [g|] eqn:Hlk; [|done].
  destruct (Hg _ _ Hlk) as [Hds Hpc]. pose proof (Hgs _ _ Hlk) as Hok.
  unfold goroutine_ok, key_of in Hok. unfold agrees_pc in Hpc.
  rewrite Hds in *.
  destruct (at_pc g) as [|k|k|k id|k id cacheKey loaded|k id r|id|id r|id res|]
    eqn:Heq.
  - destruct (NamespaceCacheKey _ _ _) as [k|err] eqn:Hk;
      (apply agrees_move; [done|done| |by repeat apply coherent_logged]).
    + done.
    + unfold agrees_pc, uncached. cbn. by rewrite Hk.
  - pose proof (Cache_Get_holds (c (nsc (logged (world s) [CallGet k]))) k)
      as Hget.
    assert (forall evs,
              coherent store
                (after (logged (world s) [CallGet k])
                   (Cache_Get (c (nsc (logged (world s) [CallGet k]))) k).2
                   evs)) as Hafter.
    { intros evs. eapply coherent_cache; [|exact Hw].
      intros k' v' Hh. by apply holds_Cache_Get in Hh. }
    destruct (Cache_Get _ k).1 as [found|];
      (apply agrees_move; [done|done| |done]); [|done].
    unfold agrees_pc. cbn. symmetry. eapply uncached_fetched; [done|].
    eapply Hw; [done|]. by apply Hget.
  - destruct (m s !! k); [by apply agrees_move|].
    apply agrees_move; [|done|done|done].
    apply agrees_with_group; [done|].
    intros id cl r Hcl Hr. apply lookup_app_Some in Hcl as [Hcl|[_ Hcl]];
      [by eapply Hc|].
    destruct (id - length (calls s))%nat; [|done].
    by inversion Hcl; subst cl.
  - destruct Hok as (Hk & _ & _).
    assert (agrees store
              (with_group s (m s) (alter set_fetched id (calls s)))) as Ha'.
    { apply agrees_with_group; [done|]. intros id' cl r Hcl Hr.
      destruct (decide (id' = id)) as [->|Hne].
      - rewrite list_lookup_alter_eq in Hcl.
        destruct (calls s !! id) as [cl0|] eqn:Hcl0; [|done].
        inversion Hcl; subst cl. by eapply (Hc _ _ _ Hcl0).
      - rewrite list_lookup_alter_ne in Hcl by done. by eapply Hc. }
    destruct (ds_ReadNamespace _ _ _) as [[loaded rev]|err] eqn:Hf;
      [rewrite Hk|];
      (apply agrees_move; [done|done| |by repeat apply coherent_logged]);
      unfold agrees_pc, fetched; cbn; by rewrite Hf.
  - destruct Hok as (Hk & _ & _). destruct Hpc as [-> Hf].
    apply agrees_move; [done|done|by unfold agrees_pc|].
    intros name' rev' k' v Hk' Hh. cbn [after nsc c] in Hh.
    apply holds_Cache_Set in Hh as [Hh|[-> ->]].
    + eapply Hw; [done|]. exact Hh.
    + destruct (Hkf _ _ _ _ _ Hk Hk') as [_ <-]. done.
  - destruct Hok as (Hk & _ & Hcl0).
    apply agrees_move; [|done|by unfold agrees_pc|done].
    apply agrees_with_group; [done|]. intros id' cl r' Hcl Hr.
    destruct (decide (id' = id)) as [->|Hne].
    + rewrite list_lookup_alter_eq, Hcl0 in Hcl.
      inversion Hcl; subst cl. cbn in Hr. inversion Hr; subst r'.
      exists (nsName g), (revision g). by split.
    + rewrite list_lookup_alter_ne in Hcl by done. by eapply Hc.
  - destruct (calls s !! id) as [[ck cld cf [r|]]|] eqn:Hcl; try done.
    apply agrees_move; [done|done| |done].
    destruct Hok as (cl & Hcl' & Hk). inversion Hcl'; subst cl.
    destruct (Hc _ _ _ Hcl eq_refl) as (name & rev & Hk' & ->).
    unfold agrees_pc. cbn in *.
    by destruct (Hkf _ _ _ _ _ Hk' Hk) as [_ ->].
  - destruct Hok as (cl & _ & Hk & _). subst r.
    rewrite (after_Do_fetched _ _ _ _ Hk).
    apply agrees_move; [done|done|by unfold agrees_pc|].
    by apply coherent_logged.
  - done.
  - done.
Qed.

(** X13. Overlapping calls on one datastore for which one cache key
    stands for one name and one answer, started on a coherent cache:
    whatever the scheduler does, every call that returns, leader,
    follower or served from the cache, returns what the datastore has
    for its own name and revision. *)
Theorem overlapping_calls_uncached store (w : World C) args schedule tid g id
    result :
  key_faithful store ->
  coherent store w ->
  Forall (fun a => a.1.1 = store) args ->
  goroutines (run schedule (start w args)) !! tid = Some g ->
  at_pc g = Finished id result ->
  result = uncached store (nsName g) (revision g).
Proof.
  intros Hkf Hw Hargs Hg Hpc.
  assert (agrees store (run schedule (start w args))) as [_ _ Hgs].
  { assert (agrees store (start w args)) as Hstart.
    { split; cbn [start world calls goroutines]; [done|by intros []|].
      intros tid' g' Hlk. unfold enter in Hlk.
      rewrite list_lookup_fmap in Hlk.
      destruct (args !! tid') as [a|] eqn:Ha; inversion Hlk.
      rewrite Forall_lookup in Hargs. split; [by eapply Hargs|done]. }
    pose proof (invariant_start w args) as Hinv.
    revert Hstart Hinv. generalize (start w args). generalize (trace w).
    clear -Hkf.
    induction schedule as [|t schedule IH]; intros t0 s Hs Hinv; [done|].
    change (run (t :: schedule) s) with (run schedule (step t s)).
    apply (IH t0); [by eapply agrees_step|by apply invariant_step]. }
  destruct (Hgs _ _ Hg) as [_ Hagree]. unfold agrees_pc in Hagree.
  by rewrite Hpc in Hagree.
Qed.

End Goroutines.

End OverlapFacts.

(** ** The manager on the toy datastore *)

Lemma fresh_reachable :
  reachable (C := mapCache) toy_Size (list string) toy_Build fresh.
Proof. by apply (reachable_new _ _ _ 0 None). Defined.

Lemma cached_is_first_read :
  world_of (ReadNamespace toy_Size (ContextWithDatastore toy) "document" rev1
              fresh) = cached.
Proof. vm_compute. reflexivity. Qed.

Lemma cached_reachable :
  reachable (C := mapCache) toy_Size (list string) toy_Build cached.
Proof.
  rewrite <- cached_is_first_read.
  apply reachable_ReadNamespace, fresh_reachable.
Defined.

Lemma ReadNamespace_error_translation_witness :
  returned (ReadNamespace toy_Size (ContextWithDatastore toy) "document"
              {| dec_value := 1; dec_exp := 3 |} fresh) =
  Some (None, Some (errorString "invalid revision")) /\
  returned (ReadNamespace toy_Size (ContextWithDatastore toy) "team" rev1
              fresh) =
  Some (None, Some (ErrNamespaceNotFound "team")) /\
  returned (ReadNamespace toy_Size (ContextWithDatastore toy) "folder" rev1
              fresh) =
  Some (None, Some (errorString "connection reset")).
Proof.
  split; [|split].
  - apply (ReadNamespace_error_translation toy_Size toy "document"
             {| dec_value := 1; dec_exp := 3 |} fresh).
    reflexivity.
  - apply (ReadNamespace_error_translation toy_Size toy "team" rev1 fresh)
      with "team@1"
           (wrapError "reading namespace: %w"
              (datastore_ErrNamespaceNotFound "team"));
      reflexivity.
  - apply (ReadNamespace_error_translation toy_Size toy "folder" rev1 fresh)
      with "folder@1"; reflexivity.
Defined.

Lemma ReadNamespace_sanitizes_witness :
  (exists w',
     ReadNamespace toy_Size (ContextWithDatastore toy) "document" rev1 fresh =
     Returned (Some (FilterUserDefinedMetadata document), None) w' /\
     List.filter is_insert (drop (length (trace fresh)) (trace w')) =
     [CallSet "document@1" (FilterUserDefinedMetadata document) 12]) /\
  no_user_metadata document = false /\
  no_user_metadata (FilterUserDefinedMetadata document) = true.
Proof.
  destruct (ReadNamespace_sanitizes (C := mapCache) toy_Size (list string)
              toy_Build) as [Hmiss Hclean].
  split; [|split; [reflexivity|]].
  - destruct (Hmiss toy "document" rev1 fresh "document@1" document rev1
                eq_refl eq_refl eq_refl) as (w' & Hr & Hi & _).
    exists w'. split; [exact Hr | exact Hi].
  - apply (Hclean cached (ContextWithDatastore toy) "document" rev1
             cached_reachable) with None.
    vm_compute. reflexivity.
Defined.

Lemma ReadNamespace_cache_hit_witness :
  exists w',
    ReadNamespace toy_Size (ContextWithDatastore toy) "document" rev1 cached =
    Returned (Some (FilterUserDefinedMetadata document), None) w' /\
    fetches (trace w') = 1%nat /\
    inserts (trace w') = 1%nat.
Proof.
  destruct (ReadNamespace_cache_hit toy_Size toy "document" rev1 cached
              "document@1" (FilterUserDefinedMetadata document))
    as (w' & Hr & Hf & Hi & _); [reflexivity | vm_compute; reflexivity |].
  exists w'. split; [exact Hr|]. split; [exact Hf | exact Hi].
Defined.

Lemma CheckNamespaceAndRelation_spec_witness :
  (exists res,
     CheckNamespaceAndRelation toy_Size (ContextWithDatastore toy)
       "document" "editor" false rev1 cached = Returned res
       (world_of (ReadNamespace toy_Size (ContextWithDatastore toy)
                    "document" rev1 cached)) /\
     res = None) /\
  (exists res,
     returned (CheckNamespaceAndRelation toy_Size (ContextWithDatastore toy)
                 "document" "owner" false rev1 cached) = Some res /\
     res = Some (ErrRelationNotFound "document" "owner")).
Proof.
  split.
  - destruct (CheckNamespaceAndRelation_spec toy_Size
                (ContextWithDatastore toy) "document" "editor" false rev1
                cached (FilterUserDefinedMetadata document)
                (world_of (ReadNamespace toy_Size (ContextWithDatastore toy)
                             "document" rev1 cached)))
      as (res & Hr & Hiff & _); [vm_compute; reflexivity|].
    exists res. split; [exact Hr|]. apply Hiff. right.
    exists (strip_relation
              {| Name := "editor"; Relation_UsersetRewrite := None;
                 Relation_Metadata := None;
                 Relation_TypeInformation := None |}).
    split; [right; left|]; reflexivity.
  - destruct (CheckNamespaceAndRelation_spec toy_Size
                (ContextWithDatastore toy) "document" "owner" false rev1
                cached (FilterUserDefinedMetadata document)
                (world_of (ReadNamespace toy_Size (ContextWithDatastore toy)
                             "document" rev1 cached)))
      as (res & Hr & Hiff & Herr); [vm_compute; reflexivity|].
    exists res. split; [by rewrite Hr|]. apply Herr. intros Hnone.
    apply Hiff in Hnone as [[[=] _]|(rel & Hin & Hname)].
    cbn in Hin. destruct Hin as [<-|[<-|[]]]; discriminate Hname.
Defined.

Lemma NewCachingNamespaceManager_defaults_witness :
  NewCachingNamespaceManager (C := mapCache) 5
    (Some {| NumCounters := 10; MaxCost := 0; BufferItems := 1 |}) =
  (None,
   Some (wrapError "unable to initialize namespace manager: %w"
           (errorString "MaxCost can't be zero"))) /\
  NewCachingNamespaceManager (C := mapCache) 5 None =
  (Some {| expiration := 5; c := {| items := ∅; budget := 16777216 |} |},
   None).
Proof.
  split.
  - apply (NewCachingNamespaceManager_defaults (C := mapCache) 5
             (Some {| NumCounters := 10; MaxCost := 0; BufferItems := 1 |})).
    reflexivity.
  - apply (NewCachingNamespaceManager_defaults (C := mapCache) 5 None).
    reflexivity.
Defined.

Lemma ReadNamespaceAndTypes_rebuilds_witness :
  returned (ReadNamespaceAndTypes toy_Size (list string) toy_Build
              (ContextWithDatastore toy) "group" rev1 cached) =
  Some (Some (FilterUserDefinedMetadata group), None,
        Some (errorString "found duplicate relation")) /\
  returned (ReadNamespaceAndTypes toy_Size (list string) toy_Build
              (ContextWithDatastore toy) "document" rev1 cached) =
  Some (Some (FilterUserDefinedMetadata document),
        Some ["viewer"; "editor"], None).
Proof.
  split.
  - pose proof (ReadNamespaceAndTypes_rebuilds toy_Size (list string)
                  toy_Build (ContextWithDatastore toy) "group" rev1 cached)
      as Hbuild.
    destruct (ReadNamespace toy_Size (ContextWithDatastore toy) "group" rev1
                cached) as [[nsDef [e|]] w1|msg w1] eqn:Hr;
      vm_compute in Hr; try discriminate Hr.
    destruct Hbuild as (_ & -> & _). inversion Hr. reflexivity.
  - pose proof (ReadNamespaceAndTypes_rebuilds toy_Size (list string)
                  toy_Build (ContextWithDatastore toy) "document" rev1 cached)
      as Hbuild.
    destruct (ReadNamespace toy_Size (ContextWithDatastore toy) "document"
                rev1 cached) as [[nsDef [e|]] w1|msg w1] eqn:Hr;
      vm_compute in Hr; try discriminate Hr.
    destruct Hbuild as (_ & -> & _). inversion Hr. reflexivity.
Defined.

Lemma expiration_unobservable_witness :
  returned (ReadNamespace toy_Size (ContextWithDatastore toy) "document" rev1
              (with_expiration 3600 cached)) =
  returned (ReadNamespace toy_Size (ContextWithDatastore toy) "document" rev1
              (with_expiration 60 cached)).
Proof.
  destruct (expiration_unobservable (C := mapCache) toy_Size (list string)
              toy_Build 3600 0) as (_ & Hlong & _).
  destruct (expiration_unobservable (C := mapCache) toy_Size (list string)
              toy_Build 60 0) as (_ & Hshort & _).
  rewrite Hlong, Hshort.
  by destruct (ReadNamespace toy_Size (ContextWithDatastore toy) "document"
                 rev1 cached).
Defined.

Lemma ReadNamespace_error_inserts_nothing_witness :
  inserts
    (trace (world_of (ReadNamespace toy_Size (ContextWithDatastore toy)
                        "folder" rev1 cached))) =
  inserts (trace cached).
Proof.
  apply (ReadNamespace_error_inserts_nothing toy_Size
           (ContextWithDatastore toy) "folder" rev1 cached None
           (errorString "connection reset")).
  vm_compute. reflexivity.
Defined.

Lemma CheckNamespaceAndRelation_ellipsis_reads_first_witness :
  returned (CheckNamespaceAndRelation toy_Size (ContextWithDatastore toy)
              "user" Ellipsis true rev1 cached) =
  Some (Some (ErrNamespaceNotFound "user")).
Proof.
  rewrite (CheckNamespaceAndRelation_ellipsis_reads_first toy_Size
             (ContextWithDatastore toy) "user" rev1 cached None
             (ErrNamespaceNotFound "user")
             (world_of (ReadNamespace toy_Size (ContextWithDatastore toy)
                          "user" rev1 cached)));
    [reflexivity | vm_compute; reflexivity].
Defined.

(** ** Two calls at once on the toy datastore *)



(** ** Witnesses of the further properties *)

Lemma key_faithful_flat : Overlap.key_faithful flat.
Proof.
  intros name rev name' rev' k [= ->] [= ->]. split; [done|].
  unfold fetched, flat, toy_ReadNamespace. cbn [ds_ReadNamespace].
  by destruct (String.eqb k "document"), (String.eqb k "group"),
       (String.eqb k "folder"), (String.eqb k "team").
Qed.

Lemma same_key_same_content_flat : same_key_same_content flat.
Proof.
  intros name rev name' rev' k Hk Hk' v.
  by destruct (key_faithful_flat _ _ _ _ _ Hk Hk') as [_ ->].
Qed.

Lemma coherent_fresh ds : coherent ds fresh.
Proof.
  intros name rev k v _ Hh.
  change ((∅ : gmap string NamespaceDefinition) !! k = Some v) in Hh.
  by rewrite lookup_empty in Hh.
Qed.

Lemma coherent_flat_read :
  coherent flat
    (world_of (ReadNamespace toy_Size (ContextWithDatastore flat) "document"
                 rev1 fresh)).
Proof.
  apply ReadNamespace_coherent;
    [apply same_key_same_content_flat | apply coherent_fresh].
Qed.

(** A read at another revision hits the entry of the first and returns
    what the datastore has. *)
Lemma cache_transparent_witness :
  let w := world_of (ReadNamespace toy_Size (ContextWithDatastore flat)
                       "document" rev1 fresh) in
  (Cache_Get (c (nsc w)) "document").1 =
  Some (FilterUserDefinedMetadata document) /\
  returned (ReadNamespace toy_Size (ContextWithDatastore flat) "document"
              rev2 w) =
  Some (Some (FilterUserDefinedMetadata document), None) /\
  returned (CheckNamespaceAndRelation toy_Size (ContextWithDatastore flat)
              "document" "owner" false rev2 w) =
  Some (Some (ErrRelationNotFound "document" "owner")).
Proof.
  intros w. split; [vm_compute; reflexivity|].
  destruct (cache_transparent toy_Size (list string) toy_Build flat w
              coherent_flat_read "document" rev2) as (Hread & _ & Hcheck).
  split; [exact Hread | exact (Hcheck "owner" false)].
Defined.

Lemma coherent_kept_witness :
  coherent flat
    (world_of (ReadNamespace toy_Size (ContextWithDatastore flat) "document"
                 rev2
                 (world_of (Close (C := mapCache) fresh)))).
Proof.
  destruct (coherent_kept (C := mapCache) toy_Size (list string) toy_Build
              flat) as [_ Hkept].
  destruct (Hkept same_key_same_content_flat fresh (coherent_fresh flat))
    as (_ & _ & _ & Hclose).
  destruct (Hkept same_key_same_content_flat _ Hclose) as (Hread & _).
  exact (Hread "document" rev2).
Defined.

Lemma read_all_uncached_witness :
  read_all toy_Size (ContextWithDatastore flat) requests fresh =
  [Some (Some (FilterUserDefinedMetadata document), None);
   Some (None, Some (ErrNamespaceNotFound "user"));
   Some (None, Some (errorString "connection reset"));
   Some (Some (FilterUserDefinedMetadata document), None)].
Proof.
  exact (read_all_uncached toy_Size flat requests fresh
           same_key_same_content_flat (coherent_fresh flat)).
Defined.

Lemma spans_ended_witness :
  count is_span_start (trace cached) = 1%nat /\
  count is_span_end (trace cached) = 1%nat.
Proof.
  pose proof (spans_ended toy_Size (list string) toy_Build cached
                cached_reachable) as Heq.
  split; [reflexivity|]. rewrite <- Heq. reflexivity.
Defined.

Lemma inserts_accounted_witness :
  (inserts (trace cached) <= fetches (trace cached))%nat /\
  12 = toy_Size (FilterUserDefinedMetadata document).
Proof.
  destruct (inserts_accounted toy_Size (list string) toy_Build cached
              cached_reachable) as (Hle & _ & Hcost).
  split; [exact Hle|].
  apply (Hcost "document@1"). cbn. auto 10.
Defined.

Lemma allowEllipsis_only_for_Ellipsis_witness :
  CheckNamespaceAndRelation toy_Size (ContextWithDatastore toy) "document"
    "owner" true rev1 cached =
  CheckNamespaceAndRelation toy_Size (ContextWithDatastore toy) "document"
    "owner" false rev1 cached /\
  returned (CheckNamespaceAndRelation toy_Size (ContextWithDatastore toy)
              "document" "editor" true rev1 cached) = Some None.
Proof.
  split.
  - by apply (allowEllipsis_only_for_Ellipsis toy_Size
                (ContextWithDatastore toy) "document" "owner" rev1 cached).
  - apply (allowEllipsis_only_for_Ellipsis toy_Size
             (ContextWithDatastore toy) "document" "editor" rev1 cached).
    vm_compute. reflexivity.
Defined.

Lemma datastore_not_found_hidden_witness :
  ds_ReadNamespace toy "team" rev1 =
  inr (wrapError "reading namespace: %w"
         (datastore_ErrNamespaceNotFound "team")) /\
  errors_As (Some (ErrNamespaceNotFound "team")) = false.
Proof.
  split; [reflexivity|].
  destruct (datastore_not_found_hidden toy_Size toy "team" rev1 fresh
              "team@1" eq_refl) as [Hread _].
  apply (Hread None). reflexivity.
Defined.

Lemma sanitized_fresh : sanitized_cache fresh.
Proof.
  intros k v Hh.
  change ((∅ : gmap string NamespaceDefinition) !! k = Some v) in Hh.
  by rewrite lookup_empty in Hh.
Qed.

(** The follower of the meeting returns the sanitized document. *)
Lemma overlapping_calls_sanitized_witness :
  exists g nsDef,
    Overlap.goroutines (Overlap.run toy_Size meeting
                          (Overlap.start fresh twice)) !! 1%nat = Some g /\
    Overlap.at_pc g = Overlap.Finished (Some 0%nat) (Some nsDef, None) /\
    no_user_metadata document = false /\
    no_user_metadata nsDef = true.
Proof.
  do 2 eexists. split; [vm_compute; reflexivity|].
  split; [reflexivity|]. split; [reflexivity|].
  eapply (OverlapFacts.overlapping_calls_sanitized toy_Size fresh twice
            meeting 1%nat);
    [apply sanitized_fresh | vm_compute; reflexivity | reflexivity].
Defined.

(** In the middle of the meeting the second goroutine waits and the
    first, its leader, is ready. *)
Lemma no_deadlock_witness :
  let s := Overlap.run toy_Size (take 6 meeting) (Overlap.start fresh twice) in
  Overlap.at_pc <$> Overlap.goroutines s =
  [Overlap.AtFetch "document@1" 0; Overlap.Waiting 0] /\
  exists tid g,
    Overlap.goroutines s !! tid = Some g /\
    Overlap.ready (Overlap.calls s) (Overlap.at_pc g) = true.
Proof.
  intros s. split; [vm_compute; reflexivity|].
  destruct (OverlapFacts.no_deadlock toy_Size fresh twice (take 6 meeting))
    as [Hready _].
  eapply (Hready 1%nat); [vm_compute; reflexivity | reflexivity].
Defined.

Lemma all_calls_return_witness :
  Forall (fun g => exists id result,
            Overlap.at_pc g = Overlap.Finished id result)
    (Overlap.goroutines
       (Overlap.run toy_Size (Overlap.rounds 16 2)
          (Overlap.start fresh twice))).
Proof.
  exact (proj2 (OverlapFacts.all_calls_return toy_Size fresh twice)).
Defined.

(** Two calls at two revisions share one key: the follower returns what
    the datastore has for its own revision. *)
Lemma overlapping_calls_uncached_witness :
  exists g result,
    Overlap.goroutines (Overlap.run toy_Size meeting
                          (Overlap.start fresh twice_flat)) !! 1%nat =
    Some g /\
    Overlap.revision g = rev2 /\
    Overlap.at_pc g = Overlap.Finished (Some 0%nat) result /\
    result = (Some (FilterUserDefinedMetadata document), None).
Proof.
  do 2 eexists. split; [vm_compute; reflexivity|].
  split; [reflexivity|]. split; [reflexivity|].
  etrans;
    [eapply (OverlapFacts.overlapping_calls_uncached toy_Size flat fresh
               twice_flat meeting 1%nat _ (Some 0%nat))|].
  - apply key_faithful_flat.
  - apply coherent_fresh.
  - repeat constructor.
  - vm_compute. reflexivity.
  - reflexivity.
  - reflexivity.
Defined.
